(** * telegram-parser-system: the data collector's ingestion and
  coordination pipeline

  A shallow embedding of
    - [data-collector/src/database/writer.py]      (module [Writer]),
    - [data-collector/src/queue/message_queue.py]  (module [Queue]),
    - [data-collector/src/queue/batch_processor.py](module [Processor]),
    - [data-collector/src/api/routes.py]           (module [Routes]),
  followed by the properties of the job ledger, the storage write, the
  ingestion queue, the batch aggregator and the transport boundary.

  Conventions.  Timestamps are integers (seconds); [NOW()],
  [datetime.utcnow()] and [uuid.uuid4()] are read from the environment and
  appear as explicit arguments.  A coroutine either returns, raises, or is
  parked on an [await] that nothing in the current call can wake up
  ([Suspend]).  SQL tables without a unique index in the statements are
  lists of rows; tables addressed through [ON CONFLICT (key)] are finite
  maps on that key. *)

From stdpp Require Import gmap strings list fin_maps sorting pretty.
From Stdlib Require Import ZArith.

#[global] Set Warnings "-clear-no-such-hyp".

Open Scope string_scope.
Open Scope Z_scope.
Open Scope list_scope.

(* ===================================================================== *)
(** ** Python values, exceptions and coroutine outcomes                   *)
(* ===================================================================== *)

Module Py.

(** A JSON-like Python value, as found under the [Dict[str, Any]] keys. *)
#[local] Unset Elimination Schemes.
Inductive Json :=
| JNull
| JBool (b : bool)
| JInt (z : Z)
| JStr (s : string)
| JList (l : list Json)
| JDict (d : list (string * Json)).
#[local] Set Elimination Schemes.

(** The exceptions the modelled code raises or catches.  All of them are
    subclasses of [Exception]; [QueueFull] is [asyncio.QueueFull],
    [HTTPException] is FastAPI's.  [StorageUnavailable] and
    [StorageRejected] are the two failure conditions of the storage
    writer (connection-level and data-level errors of the driver). *)
Inductive PyExc :=
| QueueFull
| QueueEmpty
| TimeoutError
| Exception (msg : string)
| HTTPException (status_code : Z) (detail : string)
| StorageUnavailable (msg : string)
| StorageRejected (msg : string).

(** [str(e)]. *)
Definition str (e : PyExc) : string :=
  match e with
  | QueueFull => ""
  | QueueEmpty => ""
  | TimeoutError => ""
  | Exception msg => msg
  | HTTPException c d => pretty c +:+ ": " +:+ d
  | StorageUnavailable msg => msg
  | StorageRejected msg => msg
  end.

(** What an awaited call does. *)
Inductive outcome (A : Type) :=
| Return (a : A)
| Raise (e : PyExc)
| Suspend.
Arguments Return {A} a.
Arguments Raise {A} e.
Arguments Suspend {A}.

(** [logger.<level>(...)]: the records emitted so far, oldest first. *)
Inductive level := DEBUG | INFO | WARNING | ERROR.
Abbreviation Log := (list (level * string)).

(** [json.dumps] at the types it is applied to. *)
Class JsonDumps (A : Type) := json_dumps : A → string.

(** Truthiness of an [Optional[Dict]] or [Optional[str]] value. *)
Definition truthy_dict {A} (o : option (list A)) : bool :=
  match o with Some (_ :: _) => true | _ => false end.
Definition truthy_str (o : option string) : bool :=
  match o with Some s => negb (String.eqb s "") | None => false end.

End Py.
Import Py.

(* ===================================================================== *)
(** ** database/writer.py                                                 *)
(* ===================================================================== *)

Module Writer.

(** *** Tables *)

(** A row of [jobs]. *)
Record Job := mkJob {
  job_uuid : string;
  job_channel_id : Z;
  job_type : string;
  priority : Z;
  job_status : string;
  job_worker_id : option string;
  created_at : Z;
  started_at : option Z;
  completed_at : option Z;
  messages_collected : option Z;
  progress_percent : Z;
  error_message : option string;
  retry_count : Z
}.

(** A row of [channels]. *)
Record Channel := mkChannel {
  channel_id : Z;
  username : string;
  channel_status : string;
  last_parsed_at : option Z;
  last_message_date : option Z;
  updated_at : option Z
}.

(** The counters of a row of [workers]; the row's key is [worker_id]. *)
Record Worker := mkWorker {
  worker_status : string;
  last_heartbeat : Z;
  jobs_completed : Z;
  jobs_failed : Z;
  messages_processed : Z
}.

(** A row of [messages], keyed on [(channel_id, message_id)]. *)
Record MessageRow := mkMessageRow {
  text : option string;
  date : Z;
  views : option Z;
  forwards : option Z;
  replies : option Z;
  reactions : option string;
  edit_date : option Z;
  media_type : option string;
  media_url : option string;
  media_metadata : option string;
  author_id : option Z;
  author_name : option string;
  is_forwarded : option bool;
  forward_from : option string;
  reply_to_msg_id : option Z;
  raw_data : option string
}.

(** One element of [messages: List[Dict[str, Any]]].  [message_id] and
    [date] are the required keys of [api/models.py]'s [Message]; every
    other field is what [msg.get(key)] returns, [None] for an absent key.
    For the three keys read with a default ([msg.get(key, 0)],
    [msg.get('is_forwarded', False)]) the outer [None] is the absent key
    and [Some None] a key present with value [None]. *)
Record Message := mkMessage {
  m_message_id : Z;
  m_text : option string;
  m_date : Z;
  m_views : option (option Z);
  m_forwards : option (option Z);
  m_replies : option (option Z);
  m_reactions : option (list (string * Z));
  m_edit_date : option Z;
  m_media_type : option string;
  m_media_url : option string;
  m_media_metadata : option (list (string * Json));
  m_author_id : option Z;
  m_author_name : option string;
  m_is_forwarded : option (option bool);
  m_forward_from : option (list (string * Json));
  m_reply_to_msg_id : option Z;
  m_raw_data : option (list (string * Json))
}.

(** The database. *)
Record DB := mkDB {
  jobs : list Job;
  channels : list Channel;
  workers : gmap string Worker;
  messages : gmap (Z * Z) MessageRow
}.

(** [dict.get(key, default)]. *)
Definition get_default {A} (v : option (option A)) (d : A) : option A :=
  match v with
  | None => Some d
  | Some x => x
  end.

(** [x or 0]. *)
Definition or_zero (x : option Z) : Z :=
  match x with
  | Some n => n
  | None => 0
  end.

(** *** update_job_status *)

Definition set_running (status : string) (worker_id : option string)
    (now : Z) (j : Job) : Job :=
  mkJob (job_uuid j) (job_channel_id j) (job_type j) (priority j)
        status worker_id (created_at j) (Some now) (completed_at j)
        (messages_collected j) (progress_percent j) (error_message j)
        (retry_count j).

Definition set_completed (status : string) (collected : option Z)
    (now : Z) (j : Job) : Job :=
  mkJob (job_uuid j) (job_channel_id j) (job_type j) (priority j)
        status (job_worker_id j) (created_at j) (started_at j) (Some now)
        collected 100 (error_message j) (retry_count j).

Definition set_failed (status : string) (err : option string)
    (now : Z) (j : Job) : Job :=
  mkJob (job_uuid j) (job_channel_id j) (job_type j) (priority j)
        status (job_worker_id j) (created_at j) (started_at j) (Some now)
        (messages_collected j) (progress_percent j) err
        (retry_count j + 1).

(** [UPDATE jobs SET ... WHERE job_uuid = $1]. *)
Definition update_jobs (job_id : string) (f : Job → Job)
    (js : list Job) : list Job :=
  (λ j, if decide (job_uuid j = job_id) then f j else j) <$> js.

Definition bump_completed (n : Z) (w : Worker) : Worker :=
  mkWorker (worker_status w) (last_heartbeat w) (jobs_completed w + 1)
           (jobs_failed w) (messages_processed w + n).

Definition bump_failed (w : Worker) : Worker :=
  mkWorker (worker_status w) (last_heartbeat w) (jobs_completed w)
           (jobs_failed w + 1) (messages_processed w).

(** [if worker_id: UPDATE workers SET ... WHERE worker_id = $1]. *)
Definition update_worker_stats (worker_id : option string)
    (f : Worker → Worker) (ws : gmap string Worker) : gmap string Worker :=
  match worker_id with
  | Some w => if truthy_str (Some w) then alter f w ws else ws
  | None => ws
  end.

Definition update_job_status (db : DB) (now : Z) (job_id status : string)
    (worker_id : option string) (collected : option Z)
    (err : option string) : DB :=
  if String.eqb status "running" then
    mkDB (update_jobs job_id (set_running status worker_id now) (jobs db))
         (channels db) (workers db) (messages db)
  else if String.eqb status "completed" then
    mkDB (update_jobs job_id (set_completed status collected now) (jobs db))
         (channels db)
         (update_worker_stats worker_id (bump_completed (or_zero collected))
                              (workers db))
         (messages db)
  else if String.eqb status "failed" then
    mkDB (update_jobs job_id (set_failed status err now) (jobs db))
         (channels db)
         (update_worker_stats worker_id bump_failed (workers db))
         (messages db)
  else db.

(** *** cleanup_old_jobs *)

Definition seconds_per_day : Z := 86400.

Definition terminal (st : string) : bool :=
  String.eqb st "completed" || String.eqb st "failed".

(** The [WHERE] clause of the [DELETE]; a [NULL] [completed_at] makes
    the comparison unknown, so the row stays. *)
Definition expired (now days : Z) (j : Job) : bool :=
  terminal (job_status j) &&
  match completed_at j with
  | Some t => t <? now - days * seconds_per_day
  | None => false
  end.

Definition cleanup_old_jobs (db : DB) (now days : Z) : DB :=
  mkDB (filter (λ j, expired now days j = false) (jobs db))
       (channels db) (workers db) (messages db).

(** *** get_worker_jobs *)

(** A row of the [SELECT]. *)
Record JobListing := mkJobListing {
  l_job_uuid : string;
  l_channel_id : Z;
  l_channel_username : string;
  l_job_type : string;
  l_priority : Z;
  l_created_at : Z
}.

Definition listing (j : Job) (c : Channel) : JobListing :=
  mkJobListing (job_uuid j) (job_channel_id j) (username c) (job_type j)
               (priority j) (created_at j).

(** [FROM jobs j JOIN channels c ON j.channel_id = c.id
     WHERE j.status = 'pending' AND c.status = 'active']. *)
Definition selectable (j : Job) (c : Channel) : bool :=
  bool_decide (job_channel_id j = channel_id c) &&
  String.eqb (job_status j) "pending" &&
  String.eqb (channel_status c) "active".

Definition pending_active (js : list Job) (cs : list Channel)
    : list JobListing :=
  j ← js; c ← cs; if selectable j c then [listing j c] else [].

(** [ORDER BY j.priority DESC, j.created_at ASC]: [a] may precede [b]. *)
Definition job_order (a b : JobListing) : Prop :=
  l_priority b < l_priority a ∨
  (l_priority a = l_priority b ∧ l_created_at a ≤ l_created_at b).

#[global] Instance job_order_dec : RelDecision job_order.
Proof. intros a b. unfold job_order. apply _. Defined.

(** The two columns of the [ORDER BY]. *)
Definition sort_key (r : JobListing) : Z * Z :=
  (l_priority r, l_created_at r).

(** The answers the query admits for a limit that is not negative: the
    first [limit] rows of the joined rows, put in some order that follows
    the [ORDER BY].  The query names no further column, so rows that tie
    on both columns come in an order of the server's choosing. *)
Definition query_result (db : DB) (limit : Z) (rows : list JobListing)
    : Prop :=
  ∃ ordered,
    ordered ≡ₚ pending_active (jobs db) (channels db) ∧
    StronglySorted job_order ordered ∧
    rows = take (Z.to_nat limit) ordered.

(** One execution of the query: the rows are scanned in the order of the
    lists [jobs db] and [channels db] and sorted, rows that tie staying in
    scan order.  The order of these lists stands for the scan order, which
    is the server's choice and no part of the ledger state: two stores
    with the same rows in another order are the same ledger.
    [LIMIT $1]; the server refuses a negative row count. *)
Definition get_worker_jobs (db : DB) (worker_id : string) (limit : Z)
    : outcome (list JobListing) :=
  if limit <? 0 then Raise (StorageRejected "LIMIT must not be negative")
  else Return (take (Z.to_nat limit)
                 (merge_sort job_order
                    (pending_active (jobs db) (channels db)))).

(** *** insert_messages *)

Section insert_messages.
Context {dumps_reactions : JsonDumps (list (string * Z))}.
Context {dumps_dict : JsonDumps (list (string * Json))}.

(** [json.dumps(v) if v else None]. *)
Definition dumps_if {A} `{!JsonDumps (list A)} (v : option (list A))
    : option string :=
  if truthy_dict v then json_dumps <$> v else None.

(** The tuple appended to [records], without its leading [channel_id]:
    the message id and the values of the remaining sixteen columns. *)
Definition to_record (msg : Message) : Z * MessageRow :=
  (m_message_id msg,
   mkMessageRow (m_text msg) (m_date msg)
     (get_default (m_views msg) 0)
     (get_default (m_forwards msg) 0)
     (get_default (m_replies msg) 0)
     (dumps_if (m_reactions msg))
     (m_edit_date msg)
     (m_media_type msg) (m_media_url msg)
     (dumps_if (m_media_metadata msg))
     (m_author_id msg) (m_author_name msg)
     (get_default (m_is_forwarded msg) false)
     (dumps_if (m_forward_from msg))
     (m_reply_to_msg_id msg)
     (dumps_if (m_raw_data msg))).

(** [ON CONFLICT (channel_id, message_id) DO UPDATE SET views = ...,
    forwards = ..., replies = ..., reactions = ..., edit_date = ...]. *)
Definition on_conflict (old excluded : MessageRow) : MessageRow :=
  mkMessageRow (text old) (date old)
    (views excluded) (forwards excluded) (replies excluded)
    (reactions excluded) (edit_date excluded)
    (media_type old) (media_url old) (media_metadata old)
    (author_id old) (author_name old) (is_forwarded old)
    (forward_from old) (reply_to_msg_id old) (raw_data old).

(** One execution of the [INSERT ... ON CONFLICT] statement. *)
Definition upsert (ch : Z) (tbl : gmap (Z * Z) MessageRow)
    (rec : Z * MessageRow) : gmap (Z * Z) MessageRow :=
  match tbl !! (ch, rec.1) with
  | Some old => <[(ch, rec.1) := on_conflict old rec.2]> tbl
  | None => <[(ch, rec.1) := rec.2]> tbl
  end.

(** [conn.executemany(query, records)]. *)
Definition executemany (ch : Z) (tbl : gmap (Z * Z) MessageRow)
    (records : list (Z * MessageRow)) : gmap (Z * Z) MessageRow :=
  foldl (upsert ch) tbl records.

(** [SELECT MAX(date) FROM messages WHERE channel_id = $1]. *)
Definition max_date (ch : Z) (tbl : gmap (Z * Z) MessageRow) : option Z :=
  map_fold (λ k row acc,
              if decide (k.1 = ch)
              then Some (match acc with
                         | Some d => Z.max d (date row)
                         | None => date row
                         end)
              else acc)
           None tbl.

(** [UPDATE channels SET last_parsed_at = NOW(), last_message_date = ...,
    updated_at = NOW() WHERE id = $1]. *)
Definition update_channel_stats (ch now : Z) (last : option Z)
    (cs : list Channel) : list Channel :=
  (λ c, if decide (channel_id c = ch)
        then mkChannel (channel_id c) (username c) (channel_status c)
                       (Some now) last (Some now)
        else c) <$> cs.

Definition insert_messages (db : DB) (now ch : Z) (msgs : list Message)
    : Z * DB :=
  match msgs with
  | [] => (0, db)
  | _ =>
      let records := to_record <$> msgs in
      let tbl := executemany ch (messages db) records in
      (Z.of_nat (length records),
       mkDB (jobs db)
            (update_channel_stats ch now (max_date ch tbl) (channels db))
            (workers db) tbl)
  end.

End insert_messages.

End Writer.

(* ===================================================================== *)
(** ** queue/message_queue.py                                             *)
(* ===================================================================== *)

Module Queue.

(** The [batch_data] dictionary built by [add_batch]. *)
Record Envelope := mkEnvelope {
  batch_id : string;
  worker_id : string;
  channel_id : Z;
  job_id : option string;
  messages : list Writer.Message;
  received_at : string;
  retry_count : Z
}.

(** *** asyncio.Queue *)

Record AsyncQueue := mkAsyncQueue {
  maxsize : Z;
  items : list Envelope
}.

Definition qsize (q : AsyncQueue) : Z := Z.of_nat (length (items q)).

Definition empty (q : AsyncQueue) : bool :=
  match items q with [] => true | _ => false end.

(** A queue built with [maxsize <= 0] is never full. *)
Definition full (q : AsyncQueue) : bool :=
  if maxsize q <=? 0 then false else maxsize q <=? qsize q.

(** [await queue.put(item)]: on a full queue the caller waits for a free
    slot; the coroutine method never raises [QueueFull]. *)
Definition put (q : AsyncQueue) (item : Envelope) : outcome AsyncQueue :=
  if full q then Suspend
  else Return (mkAsyncQueue (maxsize q) (items q ++ [item])).

(** [queue.get_nowait()]. *)
Definition get_nowait (q : AsyncQueue) : outcome (Envelope * AsyncQueue) :=
  match items q with
  | [] => Raise QueueEmpty
  | item :: rest => Return (item, mkAsyncQueue (maxsize q) rest)
  end.

(** [await asyncio.wait_for(queue.get(), timeout)] with a single consumer:
    an empty queue lets the timeout expire. *)
Definition wait_for_get (q : AsyncQueue) : outcome (Envelope * AsyncQueue) :=
  match items q with
  | [] => Raise TimeoutError
  | item :: rest => Return (item, mkAsyncQueue (maxsize q) rest)
  end.

(** *** The Redis server: lists under string keys *)

Abbreviation Redis := (gmap string (list string)).

Definition backup_key : string := "message_queue_backup".

Definition lrange (k : string) (r : Redis) : list string :=
  default [] (r !! k).

(** A key whose list becomes empty disappears. *)
Definition set_list (k : string) (l : list string) (r : Redis) : Redis :=
  match l with
  | [] => delete k r
  | _ => <[k := l]> r
  end.

Definition lpush (k v : string) (r : Redis) : Redis :=
  <[k := v :: lrange k r]> r.

(** [LTRIM key start stop] for [0 <= start <= stop]. *)
Definition ltrim (k : string) (start stop : Z) (r : Redis) : Redis :=
  set_list k (take (Z.to_nat (stop + 1 - start))
                   (drop (Z.to_nat start) (lrange k r))) r.

Definition llen (k : string) (r : Redis) : Z :=
  Z.of_nat (length (lrange k r)).

Definition rpop (k : string) (r : Redis) : option string * Redis :=
  match reverse (lrange k r) with
  | [] => (None, r)
  | v :: rest => (Some v, set_list k (reverse rest) r)
  end.

(** *** MessageQueue *)

(** [redis] tells whether [self.redis] holds a client. *)
Record MessageQueue := mkMessageQueue {
  max_size : Z;
  queue : AsyncQueue;
  redis : bool
}.

(** [__init__]. *)
Definition init (max_size : Z) : MessageQueue :=
  mkMessageQueue max_size (mkAsyncQueue max_size []) false.

Definition with_queue (mq : MessageQueue) (q : AsyncQueue) : MessageQueue :=
  mkMessageQueue (max_size mq) q (redis mq).

Section message_queue.
Context {dumps_envelope : JsonDumps Envelope}.
(** [json.loads]: the dictionary a text denotes, or the exception raised
    on a text that is not JSON. *)
Variable json_loads : string → PyExc + Envelope.

Definition add_batch (mq : MessageQueue) (srv : Redis)
    (uuid4 utcnow : string) (worker_id : string) (channel_id : Z)
    (messages : list Writer.Message) (job_id : option string)
    : outcome string * MessageQueue * Redis :=
  let batch_data :=
    mkEnvelope uuid4 worker_id channel_id job_id messages utcnow 0 in
  match put (queue mq) batch_data with
  | Return q =>
      let srv' :=
        if redis mq
        then ltrim backup_key 0 9999
               (lpush backup_key (json_dumps batch_data) srv)
        else srv in
      (Return uuid4, with_queue mq q, srv')
  | Raise QueueFull => (Raise (Exception "Queue is full"), mq, srv)
  | Raise e => (Raise e, mq, srv)
  | Suspend => (Suspend, mq, srv)
  end.

Definition get_batch (mq : MessageQueue)
    : option Envelope * MessageQueue :=
  match wait_for_get (queue mq) with
  | Return (batch, q) => (Some batch, with_queue mq q)
  | _ => (None, mq)
  end.

Definition size (mq : MessageQueue) : Z := qsize (queue mq).

(** The [while not self.queue.empty()] loop of [_backup_to_redis]: the
    remaining queue content and the [items] collected so far. *)
Fixpoint drain (resident acc : list Envelope) : list Envelope :=
  match resident with
  | [] => acc
  | item :: rest => drain rest (acc ++ [item])
  end.

Definition _backup_to_redis (mq : MessageQueue) (srv : Redis)
    : MessageQueue * Redis :=
  if negb (redis mq) then (mq, srv)
  else
    let its := drain (items (queue mq)) [] in
    let mq' := with_queue mq (mkAsyncQueue (maxsize (queue mq)) []) in
    match its with
    | [] => (mq', srv)
    | _ =>
        (mq', foldl (λ s item, lpush backup_key (json_dumps item) s)
                    (delete backup_key srv) its)
    end.

(** The [for _ in range(...)] loop of [_restore_from_redis].  The record
    is popped first; [json.loads] runs outside the [try], so its exception
    leaves the loop and the method, and only [QueueFull] is caught. *)
Fixpoint restore_loop (n : nat) (q : AsyncQueue) (srv : Redis)
    : outcome unit * AsyncQueue * Redis :=
  match n with
  | O => (Return (), q, srv)
  | S n' =>
      match rpop backup_key srv with
      | (Some item_json, srv') =>
          if truthy_str (Some item_json) then
            match json_loads item_json with
            | inl e => (Raise e, q, srv')
            | inr item =>
                match put q item with
                | Return q' => restore_loop n' q' srv'
                | Raise QueueFull => (Return (), q, srv')
                | Raise e => (Raise e, q, srv')
                | Suspend => (Suspend, q, srv')
                end
            end
          else restore_loop n' q srv'
      | (None, srv') => restore_loop n' q srv'
      end
  end.

Definition _restore_from_redis (mq : MessageQueue) (srv : Redis)
    : outcome unit * MessageQueue * Redis :=
  if negb (redis mq) then (Return (), mq, srv)
  else
    let count := llen backup_key srv in
    if count =? 0 then (Return (), mq, srv)
    else
      let '(r, q, srv') :=
        restore_loop (Z.to_nat (Z.min count (max_size mq))) (queue mq) srv in
      (r, with_queue mq q, srv').

(** [connect]: open the client, then restore. *)
Definition connect (mq : MessageQueue) (srv : Redis)
    : outcome unit * MessageQueue * Redis :=
  _restore_from_redis (mkMessageQueue (max_size mq) (queue mq) true) srv.

(** [disconnect]: back up, then close the client. *)
Definition disconnect (mq : MessageQueue) (srv : Redis)
    : MessageQueue * Redis :=
  _backup_to_redis mq srv.

End message_queue.

End Queue.

(* ===================================================================== *)
(** ** queue/batch_processor.py                                           *)
(* ===================================================================== *)

Module Processor.

(** [current_batch]: a dictionary from channel id to pending messages, in
    key insertion order. *)
Abbreviation Batches := (list (Z * list Writer.Message)).

(** [channel_id in self.current_batch] and [self.current_batch[channel_id]]. *)
Fixpoint lookup_batch (ch : Z) (b : Batches) : option (list Writer.Message) :=
  match b with
  | [] => None
  | (k, v) :: rest => if decide (k = ch) then Some v else lookup_batch ch rest
  end.

(** [self.current_batch[channel_id] = v]; a new key goes last. *)
Fixpoint set_batch (ch : Z) (v : list Writer.Message) (b : Batches)
    : Batches :=
  match b with
  | [] => [(ch, v)]
  | (k, old) :: rest =>
      if decide (k = ch) then (k, v) :: rest
      else (k, old) :: set_batch ch v rest
  end.

Record BatchProcessor := mkBatchProcessor {
  batch_size : Z;
  batch_timeout : Z;
  running : bool;
  current_batch : Batches;
  last_flush : Z;
  log : Log
}.

Definition with_batch (bp : BatchProcessor) (b : Batches) (l : Log)
    : BatchProcessor :=
  mkBatchProcessor (batch_size bp) (batch_timeout bp) (running bp) b
                   (last_flush bp) l.

Section batch_processor.
(** The injected [db_writer]: its state and its [insert_messages], which
    returns the number of rows written or raises. *)
Context {Store : Type}.
Variable insert_messages :
  Store → Z → list Writer.Message → (PyExc + Z) * Store.

Definition _flush_channel (bp : BatchProcessor) (st : Store) (ch : Z)
    : BatchProcessor * Store :=
  match lookup_batch ch (current_batch bp) with
  | None => (bp, st)
  | Some [] => (bp, st)
  | Some msgs =>
      match insert_messages st ch msgs with
      | (inr _, st') =>
          (with_batch bp (set_batch ch [] (current_batch bp))
             (log bp ++ [(INFO, "Flushed " +:+ pretty (length msgs) +:+
                                " messages for channel " +:+ pretty ch)]),
           st')
      | (inl e, st') =>
          (with_batch bp (current_batch bp)
             (log bp ++ [(ERROR, "Error flushing channel " +:+ pretty ch +:+
                                 ": " +:+ str e)]),
           st')
      end
  end.

(** [for channel_id in list(self.current_batch.keys())]. *)
Definition flush_keys (bp : BatchProcessor) (st : Store) (keys : list Z)
    : BatchProcessor * Store :=
  foldl (λ s ch, _flush_channel s.1 s.2 ch) (bp, st) keys.

Definition _flush_all (bp : BatchProcessor) (st : Store) (utcnow : Z)
    : BatchProcessor * Store :=
  match current_batch bp with
  | [] => (bp, st)
  | _ =>
      let bp0 :=
        with_batch bp (current_batch bp)
          (log bp ++ [(INFO, "Flushing all batches (" +:+
                             pretty (length (current_batch bp)) +:+
                             " channels)")]) in
      let '(bp1, st1) := flush_keys bp0 st (current_batch bp).*1 in
      (mkBatchProcessor (batch_size bp1) (batch_timeout bp1) (running bp1)
                        (current_batch bp1) utcnow (log bp1), st1)
  end.

Definition _process_batch (bp : BatchProcessor) (st : Store)
    (batch_data : Queue.Envelope) : BatchProcessor * Store :=
  let ch := Queue.channel_id batch_data in
  let pending := default [] (lookup_batch ch (current_batch bp)) in
  let bp1 :=
    with_batch bp (set_batch ch (pending ++ Queue.messages batch_data)
                             (current_batch bp)) (log bp) in
  if batch_size bp <=? Z.of_nat (length (pending ++ Queue.messages batch_data))
  then _flush_channel bp1 st ch
  else (bp1, st).

Definition _check_flush (bp : BatchProcessor) (st : Store) (utcnow : Z)
    : BatchProcessor * Store :=
  if (batch_timeout bp <=? utcnow - last_flush bp) &&
     match current_batch bp with [] => false | _ => true end
  then _flush_all bp st utcnow
  else (bp, st).

Definition stop (bp : BatchProcessor) (st : Store) (utcnow : Z)
    : BatchProcessor * Store :=
  let bp0 :=
    mkBatchProcessor (batch_size bp) (batch_timeout bp) false
                     (current_batch bp) (last_flush bp)
                     (log bp ++ [(INFO, "Stopping batch processor...")]) in
  let '(bp1, st1) := _flush_all bp0 st utcnow in
  (with_batch bp1 (current_batch bp1)
              (log bp1 ++ [(INFO, "Batch processor stopped")]), st1).

(** One turn of the [while self.running] loop of [start]: take a batch
    with a bounded wait, merge it, then check the time trigger.  Every
    failure of a write is caught inside [_flush_channel]. *)
Definition start_iteration (bp : BatchProcessor) (st : Store)
    (mq : Queue.MessageQueue) (utcnow : Z)
    : BatchProcessor * Store * Queue.MessageQueue :=
  let '(batch_data, mq') := Queue.get_batch mq in
  let '(bp1, st1) :=
    match batch_data with
    | Some b => _process_batch bp st b
    | None => (bp, st)
    end in
  let '(bp2, st2) := _check_flush bp1 st1 utcnow in
  (bp2, st2, mq').

End batch_processor.

(** [DatabaseWriter.insert_messages] as the injected writer. *)
Definition db_writer `{!JsonDumps (list (string * Z))}
    `{!JsonDumps (list (string * Json))} (now : Z)
    (db : Writer.DB) (ch : Z) (msgs : list Writer.Message)
    : (PyExc + Z) * Writer.DB :=
  let '(n, db') := Writer.insert_messages db now ch msgs in (inr n, db').

End Processor.

(* ===================================================================== *)
(** ** api/routes.py                                                      *)
(* ===================================================================== *)

Module Routes.

Record MessageBatch := mkMessageBatch {
  channel_id : Z;
  job_id : option string;
  messages : list Writer.Message
}.

Record MessageResponse := mkMessageResponse {
  success : bool;
  batch_id : string;
  messages_count : Z;
  message : string
}.

(** The body of a [{"success": ..., "message": ...}] answer. *)
Record Ack := mkAck {
  ack_success : bool;
  ack_message : string
}.

(** [try: body except Exception as e: raise HTTPException(500, str(e))]. *)
Definition except_500 {A} (body : outcome A) : outcome A :=
  match body with
  | Raise e => Raise (HTTPException 500 (str e))
  | other => other
  end.

Section submit.
Context {dumps_envelope : JsonDumps Queue.Envelope}.

Definition submit_messages (batch : MessageBatch) (worker_id : string)
    (mq : Queue.MessageQueue) (srv : Queue.Redis) (uuid4 utcnow : string)
    : outcome MessageResponse * Queue.MessageQueue * Queue.Redis :=
  let '(body, mq', srv') :=
    match messages batch with
    | [] => (Raise (HTTPException 400 "Empty message batch"), mq, srv)
    | _ =>
        if (1000 <? length (messages batch))%nat
        then (Raise (HTTPException 400 "Batch too large (max 1000 messages)"),
              mq, srv)
        else
          match Queue.add_batch mq srv uuid4 utcnow worker_id
                  (channel_id batch) (messages batch) (job_id batch) with
          | (Return bid, mq1, srv1) =>
              (Return (mkMessageResponse true bid
                         (Z.of_nat (length (messages batch)))
                         "Messages queued for processing"), mq1, srv1)
          | (Raise e, mq1, srv1) => (Raise e, mq1, srv1)
          | (Suspend, mq1, srv1) => (Suspend, mq1, srv1)
          end
    end in
  (except_500 body, mq', srv').

End submit.

(** [JobResponse] of models.py; every field is required. *)
Record JobResponse := mkJobResponse {
  jr_job_id : string;
  jr_channel_id : Z;
  jr_channel_username : string;
  jr_job_type : string;
  jr_priority : Z;
  jr_created_at : Z
}.

(** [dict(row)] for a row of [get_worker_jobs]: the keys are the column
    names of the [SELECT]. *)
Definition row_dict (r : Writer.JobListing) : list (string * Json) :=
  [("job_uuid", JStr (Writer.l_job_uuid r));
   ("channel_id", JInt (Writer.l_channel_id r));
   ("channel_username", JStr (Writer.l_channel_username r));
   ("job_type", JStr (Writer.l_job_type r));
   ("priority", JInt (Writer.l_priority r));
   ("created_at", JInt (Writer.l_created_at r))].

(** [d.get(key)]. *)
Fixpoint dict_get (key : string) (d : list (string * Json)) : option Json :=
  match d with
  | [] => None
  | (k, v) :: rest => if String.eqb k key then Some v else dict_get key rest
  end.

(** Validation of a dictionary as a [JobResponse]. *)
Definition validate_job (d : list (string * Json)) : option JobResponse :=
  match dict_get "job_id" d, dict_get "channel_id" d,
        dict_get "channel_username" d, dict_get "job_type" d,
        dict_get "priority" d, dict_get "created_at" d with
  | Some (JStr id), Some (JInt ch), Some (JStr u), Some (JStr ty),
    Some (JInt p), Some (JInt t) => Some (mkJobResponse id ch u ty p t)
  | _, _, _, _, _, _ => None
  end.

(** [response_model=List[JobResponse]]: the framework validates the value
    the handler returned.  This happens after the handler, so outside its
    [try]: a value that does not validate raises past the handler. *)
Definition response_model_jobs (value : list (list (string * Json)))
    : outcome (list JobResponse) :=
  match mapM validate_job value with
  | Some body => Return body
  | None => Raise (Exception "ResponseValidationError")
  end.

Definition get_jobs (db : Writer.DB) (worker_id : string) (limit : Z)
    : outcome (list JobResponse) :=
  match except_500 (Writer.get_worker_jobs db worker_id limit) with
  | Return jobs => response_model_jobs (row_dict <$> jobs)
  | Raise e => Raise e
  | Suspend => Suspend
  end.

(** The status of the answer the framework sends for a request: that of
    the [HTTPException] raised, 500 for any other exception. *)
Definition status_code {A} (answer : outcome A) : option Z :=
  match answer with
  | Return _ => Some 200
  | Raise (HTTPException c _) => Some c
  | Raise _ => Some 500
  | Suspend => None
  end.

Definition start_job (db : Writer.DB) (now : Z) (job_id worker_id : string)
    : outcome Ack * Writer.DB :=
  (except_500 (Return (mkAck true "Job started")),
   Writer.update_job_status db now job_id "running" (Some worker_id)
                            None None).

Definition complete_job (db : Writer.DB) (now : Z) (job_id : string)
    (messages_count : Z) (worker_id : string) : outcome Ack * Writer.DB :=
  (except_500 (Return (mkAck true "Job completed")),
   Writer.update_job_status db now job_id "completed" (Some worker_id)
                            (Some messages_count) None).

Definition fail_job (db : Writer.DB) (now : Z) (job_id error_message : string)
    (worker_id : string) : outcome Ack * Writer.DB :=
  (except_500 (Return (mkAck true "Job marked as failed")),
   Writer.update_job_status db now job_id "failed" (Some worker_id)
                            None (Some error_message)).

End Routes.

(* ===================================================================== *)
(** ** database/writer.py: the worker registry                            *)
(* ===================================================================== *)

Module Registry.
Import Writer.

(** The columns of a [workers] row that [Writer.Worker] leaves out. *)
Record WorkerMeta := mkWorkerMeta {
  metadata : option string;
  worker_started_at : option Z
}.

(** The database with every column of [workers]: the counters are in
    [Writer.workers], the other columns in a map on the same key. *)
Record Store := mkStore {
  db : DB;
  worker_meta : gmap string WorkerMeta
}.

Definition with_db (s : Store) (d : DB) : Store :=
  mkStore d (worker_meta s).

(** The dictionary returned by [get_worker_stats]. *)
Record WorkerStats := mkWorkerStats {
  stat_jobs_completed : Z;
  stat_jobs_failed : Z;
  stat_messages_processed : Z;
  uptime_seconds : option Z
}.

Definition started_at_of (s : Store) (worker_id : string) : option Z :=
  worker_meta s !! worker_id ≫= worker_started_at.

(** [SELECT jobs_completed, jobs_failed, messages_processed,
     EXTRACT(EPOCH FROM (NOW() - started_at))::int FROM workers
     WHERE worker_id = $1], and zeros when there is no row. *)
Definition get_worker_stats (s : Store) (now : Z) (worker_id : string)
    : WorkerStats :=
  match workers (db s) !! worker_id with
  | Some w =>
      mkWorkerStats (jobs_completed w) (jobs_failed w) (messages_processed w)
                    ((λ t, now - t) <$> started_at_of s worker_id)
  | None => mkWorkerStats 0 0 0 (Some 0)
  end.

Section heartbeat.
Context {dumps_dict : JsonDumps (list (string * Json))}.

(** The table definition is not part of the repository: the counters of
    a row created by the [INSERT] of a heartbeat and its [started_at] are
    the column defaults, taken as parameters. *)
Variable default_counters : Worker.
Variable default_started_at : Z → option Z.

(** [jsonb_set(COALESCE(metadata, '{}'), '{current_job}', to_jsonb($2))]
    of the database server, on the JSON text. *)
Variable jsonb_set_current_job : string → string → string.

Definition update_worker_heartbeat (s : Store) (now : Z)
    (worker_id status : string) (current_job : option string)
    (meta : option (list (string * Json))) : Store :=
  let md := dumps_if meta in
  let existing := workers (db s) !! worker_id in
  let w :=
    match existing with
    | Some old =>
        mkWorker status now (jobs_completed old) (jobs_failed old)
                 (messages_processed old)
    | None =>
        mkWorker status now (jobs_completed default_counters)
                 (jobs_failed default_counters)
                 (messages_processed default_counters)
    end in
  let started :=
    match existing with
    | Some _ => started_at_of s worker_id
    | None => default_started_at now
    end in
  let md' :=
    match current_job with
    | Some job =>
        if truthy_str (Some job)
        then Some (jsonb_set_current_job (default "{}" md) job)
        else md
    | None => md
    end in
  mkStore (mkDB (jobs (db s)) (channels (db s))
                (<[worker_id := w]> (workers (db s))) (messages (db s)))
          (<[worker_id := mkWorkerMeta md' started]> (worker_meta s)).

(** [POST /heartbeat]; the answer carries the current time. *)
Definition worker_heartbeat (s : Store) (now : Z) (status : string)
    (current_job : option string) (meta : option (list (string * Json)))
    (worker_id : string) : outcome (bool * string * Z) * Store :=
  (Routes.except_500 (Return (true, "Heartbeat received", now)),
   update_worker_heartbeat s now worker_id status current_job meta).

End heartbeat.

(** [GET /stats]: the queue depth and the caller's counters. *)
Record StatsResponse := mkStatsResponse {
  queue_size : Z;
  worker_stats : WorkerStats
}.

Definition get_stats (mq : Queue.MessageQueue) (s : Store) (now : Z)
    (worker_id : string) : outcome StatsResponse :=
  Routes.except_500
    (Return (mkStatsResponse (Queue.size mq)
                             (get_worker_stats s now worker_id))).

End Registry.

(* ===================================================================== *)
(** ** worker/src/api_client.py                                           *)
(* ===================================================================== *)

Module Client.

(** The JSON body of a submission. *)
Record Payload := mkPayload {
  channel_id : Z;
  job_id : option string;
  messages : list Writer.Message
}.

(** What one [client.post], [raise_for_status] and reading of the answer
    does: the answer is read; or an [httpx.HTTPError] is raised (no
    connection, or a 4xx or 5xx status); or another exception is raised
    (an answer without the expected keys). *)
Inductive PostResult :=
| Accepted
| HTTPError (msg : string)
| Fails (e : PyExc).

(** The effects of the client, in the order they happen. *)
Inductive Event :=
| Posted (r : PostResult)
| Slept (seconds : Z).

Section submit.
(** The network and the collector behind it. *)
Context {Net : Type}.
Variable post : Net → Payload → PostResult * Net.

(** The [for attempt in range(retry_count)] loop, [remaining] turns
    before its end. *)
Fixpoint submit_loop (retry_count : Z) (remaining : nat) (attempt : Z)
    (net : Net) (payload : Payload) (trace : list Event)
    : outcome bool * Net * list Event :=
  match remaining with
  | O => (Return false, net, trace)
  | S remaining' =>
      match post net payload with
      | (Accepted, net') => (Return true, net', trace ++ [Posted Accepted])
      | (HTTPError msg, net') =>
          if attempt <? retry_count - 1
          then submit_loop retry_count remaining' (attempt + 1) net' payload
                 (trace ++ [Posted (HTTPError msg); Slept (2 ^ attempt)])
          else (Return false, net', trace ++ [Posted (HTTPError msg)])
      | (Fails e, net') => (Raise e, net', trace ++ [Posted (Fails e)])
      end
  end.

Definition submit_messages (net : Net) (channel_id : Z)
    (messages : list Writer.Message) (job_id : option string)
    (retry_count : Z) : outcome bool * Net * list Event :=
  submit_loop retry_count (Z.to_nat retry_count) 0 net
              (mkPayload channel_id job_id messages) [].

End submit.

End Client.

(* ===================================================================== *)
(** ** worker/src/job_executor.py                                         *)
(* ===================================================================== *)

Module Executor.

Section collect.
(** The messages of the content source, their parsed form, and the
    collector as seen through the API client. *)
Context {Raw Parsed Net : Type}.

(** [self.parser.parse_message], which may raise. *)
Variable parse_message : Raw → PyExc + Parsed.

(** [self.api_client.submit_messages(channel_id, batch, job_id)] for the
    job at hand: [True], [False], or an exception. *)
Variable submit_messages : Net → list Parsed → (PyExc + bool) * Net.

(** [self.config.MESSAGE_BATCH_SIZE]. *)
Variable batch_size : Z.

(** The effects of the collection, in the order they happen. *)
Inductive Event :=
| Submitted (batch : list Parsed) (answer : PyExc + bool)
| Slept (seconds : Z).

(** The body of the [async for message in ...] loop, message by
    message; a message that fails to parse, or whose submission raises,
    is logged and skipped by the inner [except]. *)
Fixpoint collect_loop (stream : list Raw) (batch : list Parsed)
    (messages_collected : Z) (net : Net) (trace : list Event)
    : list Parsed * Z * Net * list Event :=
  match stream with
  | [] => (batch, messages_collected, net, trace)
  | message :: rest =>
      match parse_message message with
      | inl _ => collect_loop rest batch messages_collected net trace
      | inr parsed_message =>
          let batch' := batch ++ [parsed_message] in
          let collected' := messages_collected + 1 in
          if batch_size <=? Z.of_nat (length batch') then
            match submit_messages net batch' with
            | (inr true, net') =>
                collect_loop rest [] collected' net'
                  (trace ++ [Submitted batch' (inr true)])
            | (inr false, net') =>
                collect_loop rest batch' collected' net'
                  (trace ++ [Submitted batch' (inr false); Slept 5])
            | (inl e, net') =>
                collect_loop rest batch' collected' net'
                  (trace ++ [Submitted batch' (inl e)])
            end
          else collect_loop rest batch' collected' net trace
      end
  end.

(** [_collect_messages]: [stream] is what the source yields and
    [stream_error] the exception that ends the iteration, if any. *)
Definition _collect_messages (stream : list Raw)
    (stream_error : option PyExc) (messages_collected : Z) (net : Net)
    : outcome unit * Z * Net * list Event :=
  let '(batch, collected, net1, trace) :=
    collect_loop stream [] messages_collected net [] in
  match stream_error with
  | Some e => (Raise e, collected, net1, trace)
  | None =>
      match batch with
      | [] => (Return (), collected, net1, trace)
      | _ =>
          match submit_messages net1 batch with
          | (inl e, net2) =>
              (Raise e, collected, net2, trace ++ [Submitted batch (inl e)])
          | (inr ok, net2) =>
              (Return (), collected, net2,
               trace ++ [Submitted batch (inr ok)])
          end
      end
  end.

End collect.

(** A call of the API client on the job ledger: [start_job],
    [complete_job], [fail_job]. *)
Inductive Report :=
| StartJob (job_id : string)
| CompleteJob (job_id : string) (messages_count : Z)
| FailJob (job_id : string) (error_message : string).

Section execute.
Context {Raw Parsed Net : Type}.
Variable parse_message : Raw → PyExc + Parsed.

(** [api_client.submit_messages(channel_id, batch, job_id)]. *)
Variable submit_messages :
  Z → option string → Net → list Parsed → (PyExc + bool) * Net.

(** The three reporting calls of the API client; each answers [True] or
    [False], or raises something other than an HTTP error. *)
Variable report : Net → Report → (PyExc + bool) * Net.

(** [telegram_client.get_messages(username, limit, offset_date)]: the
    messages yielded and the exception that ends the iteration, if any. *)
Variable get_messages :
  string → option Z → option Z → list Raw * option PyExc.

Variable batch_size : Z.

Definition seconds_per_day : Z := 86400.

(** The [except Exception as e: await self.api_client.fail_job(...)]
    clause of [execute]. *)
Definition report_failure (job_id : string) (e : PyExc) (net : Net)
    (reports : list Report) : outcome unit * Net * list Report :=
  match report net (FailJob job_id (str e)) with
  | (inl e', net') => (Raise e', net', reports ++ [FailJob job_id (str e)])
  | (inr _, net') => (Return (), net', reports ++ [FailJob job_id (str e)])
  end.

(** The dispatch on the job type: the arguments of [get_messages] for the
    three known types ([_execute_initial_parse], [_execute_update_parse],
    [_execute_full_sync]; the channel information fetched by the first
    is only logged). *)
Definition stream_of (job_type username : string) (now : Z)
    : option (list Raw * option PyExc) :=
  if String.eqb job_type "initial"
  then Some (get_messages username (Some 1000) None)
  else if String.eqb job_type "update"
  then Some (get_messages username None (Some (now - 1 * seconds_per_day)))
  else if String.eqb job_type "full_sync"
  then Some (get_messages username None None)
  else None.

(** [execute(job)]: [messages_collected] starts at zero. *)
Definition execute (job : Writer.JobListing) (now : Z) (net : Net)
    : outcome unit * Net * list Report * list (@Event Parsed) :=
  let job_id := Writer.l_job_uuid job in
  let fails e net' reports trace :=
    let '(r, net'', reports') := report_failure job_id e net' reports in
    (r, net'', reports', trace) in
  match report net (StartJob job_id) with
  | (inl e, net1) => fails e net1 [StartJob job_id] []
  | (inr _, net1) =>
      match stream_of (Writer.l_job_type job)
              (Writer.l_channel_username job) now with
      | None =>
          fails (Exception ("Unknown job type: " +:+ Writer.l_job_type job))
                net1 [StartJob job_id] []
      | Some (stream, stream_error) =>
          match _collect_messages parse_message
                  (submit_messages (Writer.l_channel_id job) (Some job_id))
                  batch_size stream stream_error 0 net1 with
          | (Return _, collected, net2, trace) =>
              match report net2 (CompleteJob job_id collected) with
              | (inl e, net3) =>
                  fails e net3
                        [StartJob job_id; CompleteJob job_id collected] trace
              | (inr _, net3) =>
                  (Return (), net3,
                   [StartJob job_id; CompleteJob job_id collected], trace)
              end
          | (Raise e, _, net2, trace) =>
              fails e net2 [StartJob job_id] trace
          | (Suspend, _, net2, trace) =>
              (Suspend, net2, [StartJob job_id], trace)
          end
      end
  end.

End execute.

End Executor.

(* ===================================================================== *)
(** ** Fixtures used by the concrete examples                             *)
(* ===================================================================== *)

Module Sample.

(** A test double for [json.dumps]/[json.loads] on envelopes: the text is
    the batch id between braces; a text without the opening brace does not
    decode, and what is read back carries the batch id only. *)
Definition dumps_envelope : JsonDumps Queue.Envelope :=
  λ e, "{" +:+ Queue.batch_id e +:+ "}".

Definition loads_envelope (s : string) : PyExc + Queue.Envelope :=
  if String.prefix "{" s
  then inr (Queue.mkEnvelope
              (String.substring 1 (String.length s - 2)%nat s)
              "" 0 None [] "" 0)
  else inl (Exception "Expecting value: line 1 column 1 (char 0)").

Definition dumps_reactions : JsonDumps (list (string * Z)) :=
  λ d, "{" +:+ pretty (length d) +:+ "}".

Definition dumps_dict : JsonDumps (list (string * Json)) :=
  λ d, "{" +:+ pretty (length d) +:+ "}".

Definition envelope (bid : string) : Queue.Envelope :=
  Queue.mkEnvelope bid "" 0 None [] "" 0.

Definition job (uuid : string) (ch prio : Z) (status : string)
    (w : option string) (created : Z) (done : option Z) : Writer.Job :=
  Writer.mkJob uuid ch "update" prio status w created None done None 0
               None 0.

Definition channel (id : Z) (status : string) : Writer.Channel :=
  Writer.mkChannel id "chan" status None None None.

Definition worker : Writer.Worker := Writer.mkWorker "busy" 0 0 0 0.

Definition message (id views : Z) (txt : string) : Writer.Message :=
  Writer.mkMessage id (Some txt) 100 (Some (Some views)) None None None
                   None None None None None None None None None None.

Definition ledger (js : list Writer.Job) : Writer.DB :=
  Writer.mkDB js [channel 1 "active"]
              (<["w1" := worker]> (<["w2" := worker]> ∅)) ∅.

(** A writer whose store is a call counter and which refuses every batch. *)
Definition rejecting_writer (st : nat) (ch : Z) (msgs : list Writer.Message)
    : (PyExc + Z) * nat :=
  (inl (StorageRejected "invalid input syntax"), S st).

(** A writer that cannot reach its store. *)
Definition unavailable_writer (st : nat) (ch : Z) (msgs : list Writer.Message)
    : (PyExc + Z) * nat :=
  (inl (StorageUnavailable "connection refused"), S st).

(** [DatabaseWriter.insert_messages] with the test doubles for JSON, at
    clock reading 50, as the aggregator's writer. *)
Definition db_writer (db : Writer.DB) (ch : Z) (msgs : list Writer.Message)
    : (PyExc + Z) * Writer.DB :=
  @Processor.db_writer dumps_reactions dumps_dict 50 db ch msgs.

(** A collector that answers every report with [True]; the network state
    counts the calls. *)
Definition acknowledging (net : nat) (r : Executor.Report)
    : (PyExc + bool) * nat :=
  (inr true, S net).

End Sample.

(* ===================================================================== *)
(** ** Vocabulary of the statements                                       *)
(* ===================================================================== *)

Module Spec.
Import Writer.

(** How a job row relates to its image under an update addressed to
    [job_id]: an addressed row satisfies [P], every other row is kept. *)
Definition updated_as (job_id : string) (P : Job → Job → Prop)
    (j j' : Job) : Prop :=
  job_uuid j' = job_uuid j ∧
  if decide (job_uuid j = job_id) then P j j' else j' = j.

(** The columns an [ON CONFLICT] update leaves alone: [row] carries the
    values of [old]. *)
Definition keeps_immutable (old row : MessageRow) : Prop :=
  text row = text old ∧ date row = date old ∧
  author_id row = author_id old ∧ author_name row = author_name old ∧
  media_type row = media_type old ∧ media_url row = media_url old ∧
  media_metadata row = media_metadata old ∧
  is_forwarded row = is_forwarded old ∧
  forward_from row = forward_from old ∧
  reply_to_msg_id row = reply_to_msg_id old ∧ raw_data row = raw_data old.

(** The observational columns: [row] carries the values of [incoming]. *)
Definition takes_mutable (incoming row : MessageRow) : Prop :=
  views row = views incoming ∧ forwards row = forwards incoming ∧
  replies row = replies incoming ∧ reactions row = reactions incoming ∧
  edit_date row = edit_date incoming.

(** [FROM jobs j JOIN channels c ON j.channel_id = c.id WHERE ...] read on
    the pairs of a job row and a channel row. *)
Definition eligible (p : Job * Channel) : Prop :=
  job_channel_id p.1 = channel_id p.2 ∧
  job_status p.1 = "pending" ∧ channel_status p.2 = "active".

#[export] Instance eligible_dec p : Decision (eligible p).
Proof. unfold eligible. apply _. Defined.

(** The rows of the selection as a multiset of the tables: one row for
    every eligible pair of a job and a channel. *)
Definition eligible_rows (js : list Job) (cs : list Channel)
    : list JobListing :=
  (λ p, listing p.1 p.2) <$> filter eligible (list_prod js cs).

(** The envelopes whose JSON text is truthy and decodes; what it decodes
    to need not be the envelope ([json.dumps] writes with [default=str]). *)
Definition json_decodes `{!JsonDumps Queue.Envelope}
    (json_loads : string → PyExc + Queue.Envelope) (e : Queue.Envelope)
    : Prop :=
  json_dumps e ≠ "" ∧ ∃ e', json_loads (json_dumps e) = inr e'.

(** [new] are the decodings, in order, of the truthy records of [rs]. *)
Definition decoded_from (json_loads : string → PyExc + Queue.Envelope)
    (rs : list string) (new : list Queue.Envelope) : Prop :=
  Forall2 (λ s e, json_loads s = inr e) (filter (λ s, s ≠ "") rs) new.

(** What a restore of at most [n] records does to a backup list read
    oldest first as [records]: [answer] is how the restore ends, [new] what
    it appends to the queue and [left] what it leaves in the store, oldest
    first.  It either returns, having popped the [n] oldest records and
    decoded the truthy ones, or raises the decoder's exception at the
    first truthy record that does not decode, that record popped too. *)
Definition restored_from (json_loads : string → PyExc + Queue.Envelope)
    (records : list string) (n : nat) (answer : outcome unit)
    (new : list Queue.Envelope) (left : list string) : Prop :=
  match answer with
  | Return _ =>
      left = drop n records ∧ decoded_from json_loads (take n records) new
  | Raise exc =>
      ∃ k s, (k < n)%nat ∧ records !! k = Some s ∧ s ≠ "" ∧
             json_loads s = inl exc ∧ left = drop (S k) records ∧
             decoded_from json_loads (take k records) new
  | Suspend => False
  end.

(** The partition [ch] is flushed [k] times in a row. *)
Definition flush_repeatedly {Store : Type}
    (insert_messages :
       Store → Z → list Writer.Message → (PyExc + Z) * Store)
    (k : nat) (bp : Processor.BatchProcessor) (st : Store) (ch : Z)
    : Processor.BatchProcessor * Store :=
  Nat.iter k (λ s, Processor._flush_channel insert_messages s.1 s.2 ch)
           (bp, st).

(** The row under a key once one more record addressed to that key has
    been executed. *)
Definition after_record (o : option MessageRow) (rec : Z * MessageRow)
    : option MessageRow :=
  Some (match o with
        | Some old => on_conflict old rec.2
        | None => rec.2
        end).

(** One producer call: the arguments of [add_batch] with the id and the
    time drawn for it. *)
Record Submission := mkSubmission {
  s_uuid4 : string;
  s_utcnow : string;
  s_worker : string;
  s_channel : Z;
  s_messages : list Message;
  s_job : option string
}.

(** The envelope [add_batch] builds for a submission. *)
Definition envelope_of (r : Submission) : Queue.Envelope :=
  Queue.mkEnvelope (s_uuid4 r) (s_worker r) (s_channel r) (s_job r)
                   (s_messages r) (s_utcnow r) 0.

(** The submissions are handed to [add_batch] one after the other, up to
    the first call that does not return. *)
Fixpoint add_all `{!JsonDumps Queue.Envelope} (mq : Queue.MessageQueue)
    (srv : Queue.Redis) (rs : list Submission)
    : list (outcome string) * Queue.MessageQueue * Queue.Redis :=
  match rs with
  | [] => ([], mq, srv)
  | r :: rs' =>
      match Queue.add_batch mq srv (s_uuid4 r) (s_utcnow r) (s_worker r)
              (s_channel r) (s_messages r) (s_job r) with
      | (Return bid, mq', srv') =>
          let '(os, mq'', srv'') := add_all mq' srv' rs' in
          (Return bid :: os, mq'', srv'')
      | (o, mq', srv') => ([o], mq', srv')
      end
  end.

(** [k] consecutive [get_batch] calls of the consumer. *)
Fixpoint get_n (k : nat) (mq : Queue.MessageQueue)
    : list (option Queue.Envelope) * Queue.MessageQueue :=
  match k with
  | O => ([], mq)
  | S k' =>
      let '(b, mq') := Queue.get_batch mq in
      let '(bs, mq'') := get_n k' mq' in
      (b :: bs, mq'')
  end.

(** The queue does not hold more than its capacity, when it has one. *)
Definition within_capacity (q : Queue.AsyncQueue) : Prop :=
  0 < Queue.maxsize q → Queue.qsize q ≤ Queue.maxsize q.

(** The accumulator [b'] has the partitions of [b], in the same order,
    and each pending list is either the one of [b] or empty. *)
Definition kept_or_cleared (b b' : Processor.Batches) : Prop :=
  b'.*1 = b.*1 ∧
  ∀ ch, Processor.lookup_batch ch b' = Processor.lookup_batch ch b ∨
        (is_Some (Processor.lookup_batch ch b) ∧
         Processor.lookup_batch ch b' = Some []).

(** The writer refuses every batch. *)
Definition writer_always_fails {Store : Type}
    (insert_messages :
       Store → Z → list Writer.Message → (PyExc + Z) * Store) : Prop :=
  ∀ s ch msgs, ∃ e s', insert_messages s ch msgs = (inl e, s').

(** The writer accepts every batch. *)
Definition writer_always_succeeds {Store : Type}
    (insert_messages :
       Store → Z → list Writer.Message → (PyExc + Z) * Store) : Prop :=
  ∀ s ch msgs, ∃ n s', insert_messages s ch msgs = (inr n, s').

(** The answer of [submit_messages] after a last post with result [r]. *)
Definition answer_of (r : Client.PostResult) : outcome bool :=
  match r with
  | Client.Accepted => Return true
  | Client.HTTPError _ => Return false
  | Client.Fails e => Raise e
  end.

(** Failed posts, each followed by its pause: the pause after the post of
    attempt [i] lasts [2 ^ i] seconds. *)
Fixpoint backoff (attempt : Z) (errors : list string) : list Client.Event :=
  match errors with
  | [] => []
  | msg :: rest =>
      Client.Posted (Client.HTTPError msg) :: Client.Slept (2 ^ attempt)
        :: backoff (attempt + 1) rest
  end.

(** The messages of a stream that parse, in order. *)
Definition parsed_of {Raw Parsed : Type}
    (parse_message : Raw → PyExc + Parsed) (stream : list Raw)
    : list Parsed :=
  omap (λ message, match parse_message message with
                   | inr p => Some p
                   | inl _ => None
                   end) stream.

(** The batches the collector answered with [True], concatenated. *)
Fixpoint delivered {Parsed : Type} (trace : list (@Executor.Event Parsed))
    : list Parsed :=
  match trace with
  | [] => []
  | Executor.Submitted batch (inr true) :: rest => batch ++ delivered rest
  | _ :: rest => delivered rest
  end.

(** Every report is answered, with [True] or [False]. *)
Definition reports_are_answered {Net : Type}
    (report : Net → Executor.Report → (PyExc + bool) * Net) : Prop :=
  ∀ net r, ∃ ok net', report net r = (inr ok, net').

End Spec.
Import Spec.

(* ===================================================================== *)
(** ** Job ledger: [update_job_status], [cleanup_old_jobs]                *)
(* ===================================================================== *)

Section ledger.
Import Writer.

Lemma update_jobs_Forall2 job_id f P js :
  (∀ j, job_uuid (f j) = job_uuid j ∧ P j (f j)) →
  Forall2 (updated_as job_id P) js (update_jobs job_id f js).
Proof.
  intros Hf. unfold update_jobs.
  induction js as [|j js IH]; simpl; constructor; [|exact IH].
  unfold updated_as. destruct (decide (job_uuid j = job_id)); [|done].
  apply Hf.
Qed.

Lemma update_jobs_uuids job_id f js :
  (∀ j, job_uuid (f j) = job_uuid j) →
  job_uuid <$> update_jobs job_id f js = job_uuid <$> js.
Proof.
  intros Hf. unfold update_jobs. rewrite <- list_fmap_compose.
  apply list_fmap_ext. intros i j _. simpl.
  destruct (decide (job_uuid j = job_id)); [apply Hf | done].
Qed.

Lemma update_job_status_uuids db now job_id status w c e :
  job_uuid <$> jobs (update_job_status db now job_id status w c e)
  = job_uuid <$> jobs db.
Proof.
  unfold update_job_status.
  repeat case_match; simpl; try done; by apply update_jobs_uuids.
Qed.

Lemma start_job_jobs db now job_id caller :
  jobs (Routes.start_job db now job_id caller).2
  = update_jobs job_id (set_running "running" (Some caller) now) (jobs db).
Proof. reflexivity. Qed.

Lemma complete_job_jobs db now job_id n caller :
  jobs (Routes.complete_job db now job_id n caller).2
  = update_jobs job_id (set_completed "completed" (Some n) now) (jobs db).
Proof. reflexivity. Qed.

Lemma complete_job_workers db now job_id n caller :
  workers (Routes.complete_job db now job_id n caller).2
  = update_worker_stats (Some caller) (bump_completed n) (workers db).
Proof. reflexivity. Qed.

Lemma fail_job_jobs db now job_id err caller :
  jobs (Routes.fail_job db now job_id err caller).2
  = update_jobs job_id (set_failed "failed" (Some err) now) (jobs db).
Proof. reflexivity. Qed.

(** C1, the claim as stated fails: a job that is [running] for worker
    [w1] is claimed by worker [w2]; the request succeeds, and the job is
    now attributed to [w2] with a new start time. *)
Lemma start_job_other_worker_takes_over :
  let db := Sample.ledger [Sample.job "j1" 1 5 "running" (Some "w1") 10 None] in
  let r := Routes.start_job db 20 "j1" "w2" in
  r.1 = Return (Routes.mkAck true "Job started") ∧
  job_worker_id <$> jobs db = [Some "w1"] ∧
  job_worker_id <$> jobs r.2 = [Some "w2"] ∧
  started_at <$> jobs r.2 = [Some 20] ∧
  jobs r.2 ≠ jobs db.
Proof. vm_compute. repeat split; try reflexivity. discriminate. Qed.

(** C1 (amended): a start-job request by any worker, for a job in any
    state, is answered with success; every job carrying the requested id
    ends [running], attributed to the caller, with [started_at] set to the
    current time, and all other jobs are left as they are.  In particular
    a re-claim by the same worker succeeds without error. *)
Theorem start_job_unconditional (db : DB) (now : Z) (job_id caller : string) :
  (Routes.start_job db now job_id caller).1
    = Return (Routes.mkAck true "Job started") ∧
  Forall2 (updated_as job_id (λ _ j',
             job_status j' = "running" ∧
             job_worker_id j' = Some caller ∧
             started_at j' = Some now))
          (jobs db) (jobs (Routes.start_job db now job_id caller).2).
Proof.
  split; [reflexivity|].
  rewrite start_job_jobs. by apply update_jobs_Forall2.
Qed.

(** C4, the claim as stated fails: a [completed] job is moved back to
    [running] by start-job, and a [failed] job to [completed] by
    complete-job. *)
Lemma terminal_job_is_restarted :
  let db := Sample.ledger
              [Sample.job "j1" 1 5 "completed" (Some "w1") 10 (Some 15);
               Sample.job "j2" 1 5 "failed" (Some "w1") 11 (Some 16)] in
  terminal "completed" = true ∧ terminal "failed" = true ∧
  job_status <$> jobs (Routes.start_job db 20 "j1" "w2").2
    = ["running"; "failed"] ∧
  job_status <$> jobs (Routes.complete_job db 20 "j2" 3 "w1").2
    = ["completed"; "completed"].
Proof. vm_compute. repeat split; reflexivity. Qed.

Lemma expired_spec now days j :
  expired now days j = true ↔
  terminal (job_status j) = true ∧
  ∃ t, completed_at j = Some t ∧ t < now - days * seconds_per_day.
Proof.
  unfold expired. rewrite andb_true_iff.
  destruct (completed_at j) as [t|].
  - rewrite Z.ltb_lt. split.
    + intros [Ht Hlt]. split; [done|]. by exists t.
    + intros [Ht (t' & Heq & Hlt)]. injection Heq as ->. done.
  - split.
    + intros [_ Hf]. discriminate.
    + intros [_ (t' & Heq & _)]. discriminate.
Qed.

Lemma cleanup_old_jobs_jobs db now days :
  jobs (cleanup_old_jobs db now days)
  = filter (λ j, expired now days j = false) (jobs db).
Proof. reflexivity. Qed.

(** C4 (amended): start-job, complete-job and fail-job never remove a job
    from the ledger, and each sets the state of the addressed job to
    [running], [completed] or [failed] whatever its current state,
    terminal states included.  The retention sweep removes exactly the
    jobs that are [completed] or [failed] with a completion time older
    than the retention window, and keeps every other job. *)
Theorem terminal_jobs_only_leave_by_sweep
    (db : DB) (now : Z) (job_id caller err : string) (n days : Z) :
  let started := (Routes.start_job db now job_id caller).2 in
  let completed := (Routes.complete_job db now job_id n caller).2 in
  let failed := (Routes.fail_job db now job_id err caller).2 in
  (job_uuid <$> jobs started = job_uuid <$> jobs db ∧
   job_uuid <$> jobs completed = job_uuid <$> jobs db ∧
   job_uuid <$> jobs failed = job_uuid <$> jobs db) ∧
  (Forall2 (updated_as job_id (λ _ j', job_status j' = "running"))
           (jobs db) (jobs started) ∧
   Forall2 (updated_as job_id (λ _ j', job_status j' = "completed"))
           (jobs db) (jobs completed) ∧
   Forall2 (updated_as job_id (λ _ j', job_status j' = "failed"))
           (jobs db) (jobs failed)) ∧
  (∀ j, j ∈ jobs (cleanup_old_jobs db now days) ↔
        j ∈ jobs db ∧
        ¬ (terminal (job_status j) = true ∧
           ∃ t, completed_at j = Some t ∧ t < now - days * seconds_per_day)).
Proof.
  intros started completed failed. subst started completed failed.
  split; [|split].
  - repeat split; apply update_job_status_uuids.
  - split; [|split].
    + rewrite start_job_jobs. by apply update_jobs_Forall2.
    + rewrite complete_job_jobs. by apply update_jobs_Forall2.
    + rewrite fail_job_jobs. by apply update_jobs_Forall2.
  - intros j. rewrite cleanup_old_jobs_jobs, list_elem_of_filter.
    rewrite <- expired_spec. split.
    + intros [Hk Hin]. split; [done|]. congruence.
    + intros [Hin Hk]. split; [|done]. by destruct (expired now days j).
Qed.

Lemma update_worker_stats_lookup caller f (ws : gmap string Worker) w :
  update_worker_stats (Some caller) f ws !! w
  = if decide (w = caller ∧ caller ≠ "") then f <$> ws !! w else ws !! w.
Proof.
  unfold update_worker_stats, truthy_str.
  destruct (String.eqb_spec caller "") as [->|Hne]; simpl.
  - destruct (decide _) as [[_ Hf]|_]; [done|reflexivity].
  - rewrite lookup_alter.
    destruct (decide (caller = w)) as [->|Hw].
    + rewrite decide_True by done. reflexivity.
    + rewrite decide_False; [reflexivity|]. intros [-> _]. done.
Qed.

(** C8, the claim as stated fails: job [j1] is [running] for worker [w1]
    and complete-job arrives from worker [w2]; the job becomes
    [completed], the counters of its assigned worker [w1] stay at zero,
    and the counters of the caller [w2] are incremented instead. *)
Lemma complete_job_credits_the_caller :
  let db := Sample.ledger [Sample.job "j1" 1 5 "running" (Some "w1") 10 None] in
  let db' := (Routes.complete_job db 20 "j1" 5 "w2").2 in
  job_status <$> jobs db' = ["completed"] ∧
  job_worker_id <$> jobs db' = [Some "w1"] ∧
  workers db' !! "w1" = Some (mkWorker "busy" 0 0 0 0) ∧
  workers db' !! "w2" = Some (mkWorker "busy" 0 1 0 5).
Proof. vm_compute. repeat split; reflexivity. Qed.

(** C8 (amended): complete-job sets every job carrying the requested id to
    [completed] and records [items_collected], the completion time and
    full progress, keeping the job's assigned worker; it increments
    [jobs_completed] by one and [items_processed] by [items_collected] on
    the worker record of the caller, when the caller's id is not empty and
    such a record exists, and leaves every other worker record, and the
    set of worker records, as they are. *)
Theorem complete_job_effects
    (db : DB) (now : Z) (job_id caller : string) (n : Z) :
  let db' := (Routes.complete_job db now job_id n caller).2 in
  Forall2 (updated_as job_id (λ j j',
             job_status j' = "completed" ∧
             messages_collected j' = Some n ∧
             completed_at j' = Some now ∧
             progress_percent j' = 100 ∧
             job_worker_id j' = job_worker_id j))
          (jobs db) (jobs db') ∧
  ∀ w, match workers db !! w, workers db' !! w with
       | Some a, Some b =>
           if decide (w = caller ∧ caller ≠ "")
           then jobs_completed b = jobs_completed a + 1 ∧
                messages_processed b = messages_processed a + n ∧
                jobs_failed b = jobs_failed a
           else b = a
       | None, None => True
       | _, _ => False
       end.
Proof.
  intros db'. subst db'. split.
  - rewrite complete_job_jobs. by apply update_jobs_Forall2.
  - intros w. rewrite complete_job_workers, update_worker_stats_lookup.
    destruct (workers db !! w) as [a|]; destruct (decide _); simpl; done.
Qed.

End ledger.

(* ===================================================================== *)
(** ** Job selection: [get_worker_jobs]                                   *)
(* ===================================================================== *)

Section job_selection.
Import Writer.

#[local] Instance job_order_total : Total job_order.
Proof. intros a b. unfold job_order. lia. Qed.

#[local] Instance job_order_trans : Transitive job_order.
Proof. intros a b c. unfold job_order. lia. Qed.

Lemma selectable_spec j c :
  selectable j c = true ↔
  job_channel_id j = channel_id c ∧
  job_status j = "pending" ∧ channel_status c = "active".
Proof.
  unfold selectable.
  rewrite !andb_true_iff, bool_decide_eq_true, !String.eqb_eq. tauto.
Qed.

Lemma elem_of_pending_active r js cs :
  r ∈ pending_active js cs ↔
  ∃ j c, j ∈ js ∧ c ∈ cs ∧ selectable j c = true ∧ r = listing j c.
Proof.
  unfold pending_active. rewrite list_elem_of_bind. split.
  - intros (j & Hr & Hj). apply list_elem_of_bind in Hr as (c & Hr & Hc).
    exists j, c. destruct (selectable j c); [|by apply elem_of_nil in Hr].
    apply list_elem_of_singleton in Hr. done.
  - intros (j & c & Hj & Hc & Hsel & ->). exists j. split; [|done].
    apply list_elem_of_bind. exists c. split; [|done].
    rewrite Hsel. by apply list_elem_of_singleton.
Qed.

(** The ordering example of the test plan: priorities 1, 5, 3 created in
    that order come back as 5, 3, 1. *)
Example get_worker_jobs_priorities :
  let db := Sample.ledger [Sample.job "a" 1 1 "pending" None 10 None;
                           Sample.job "b" 1 5 "pending" None 11 None;
                           Sample.job "c" 1 3 "pending" None 12 None] in
  match get_worker_jobs db "w1" 10 with
  | Return rows => l_job_uuid <$> rows = ["b"; "c"; "a"]
  | _ => False
  end.
Proof. vm_compute. reflexivity. Qed.

(** Equal priorities come back oldest first, whatever the row order. *)
Example get_worker_jobs_oldest_first :
  let db := Sample.ledger [Sample.job "late" 1 5 "pending" None 30 None;
                           Sample.job "early" 1 5 "pending" None 20 None;
                           Sample.job "busy" 1 9 "running" None 5 None] in
  match get_worker_jobs db "w1" 10 with
  | Return rows => l_job_uuid <$> rows = ["early"; "late"]
  | _ => False
  end.
Proof. vm_compute. reflexivity. Qed.

Lemma pending_active_eligible js cs :
  pending_active js cs = eligible_rows js cs.
Proof.
  unfold pending_active, eligible_rows.
  induction js as [|j js IH]; [done|].
  cbn [list_prod]. rewrite filter_app, fmap_app, <- IH.
  change ((j :: js) ≫= ?f) with (f j ++ (js ≫= f)). f_equal.
  clear IH. induction cs as [|c cs IHc]; [done|].
  change ((c :: cs) ≫= ?f) with (f c ++ (cs ≫= f)).
  cbn [map]. rewrite filter_cons, IHc.
  destruct (selectable j c) eqn:Hsel.
  - rewrite decide_True; [done|]. by apply selectable_spec in Hsel.
  - rewrite decide_False; [done|]. intros He.
    apply (selectable_spec j c) in He. congruence.
Qed.

(** The joined rows do not depend on the order of the tables' rows. *)
Lemma pending_active_Permutation js js' cs cs' :
  js ≡ₚ js' → cs ≡ₚ cs' → pending_active js cs ≡ₚ pending_active js' cs'.
Proof.
  intros Hjs Hcs. unfold pending_active.
  transitivity (j ← js; c ← cs'; if selectable j c then [listing j c] else []).
  - clear Hjs. induction js as [|j js IH]; [done|].
    change ((j :: js) ≫= ?f) with (f j ++ (js ≫= f)).
    apply Permutation_app; [|exact IH]. by rewrite Hcs.
  - by rewrite Hjs.
Qed.

(** Two orders of the same rows that both follow the [ORDER BY] carry the
    same sequence of sort keys. *)
Lemma sorted_keys_unique (l l' : list JobListing) :
  l ≡ₚ l' → StronglySorted job_order l → StronglySorted job_order l' →
  sort_key <$> l = sort_key <$> l'.
Proof.
  intros Hp Hl Hl'.
  apply (StronglySorted_unique_strong
           (λ p q : Z * Z, q.1 < p.1 ∨ (p.1 = q.1 ∧ p.2 ≤ q.2))).
  - intros [a b] [c d] _ _. cbn [fst snd]. intros H1 H2. f_equal; lia.
  - apply (StronglySorted_fmap _ job_order); [|exact Hl].
    intros x y H. exact H.
  - apply (StronglySorted_fmap _ job_order); [|exact Hl'].
    intros x y H. exact H.
  - by apply fmap_Permutation.
Qed.

Lemma NoDup_fmap_inj {A B} (f : A → B) (l : list A) x y :
  NoDup (f <$> l) → x ∈ l → y ∈ l → f x = f y → x = y.
Proof.
  induction l as [|a l IH]; intros Hnd Hx Hy Hf.
  - by apply elem_of_nil in Hx.
  - rewrite fmap_cons in Hnd. apply NoDup_cons in Hnd as [Ha Hnd].
    apply elem_of_cons in Hx as [->|Hx]; apply elem_of_cons in Hy as [->|Hy].
    + done.
    + exfalso. apply Ha. rewrite Hf. apply list_elem_of_fmap. by exists y.
    + exfalso. apply Ha. rewrite <- Hf. apply list_elem_of_fmap. by exists x.
    + by apply IH.
Qed.

(** What every admitted answer satisfies. *)
Lemma query_result_ordered (db : DB) (limit : Z) rows :
  0 ≤ limit → query_result db limit rows →
  Forall (λ r, ∃ j c,
            j ∈ jobs db ∧ c ∈ channels db ∧
            job_channel_id j = channel_id c ∧
            job_status j = "pending" ∧ channel_status c = "active" ∧
            r = listing j c) rows ∧
  Z.of_nat (length rows) ≤ limit ∧
  StronglySorted job_order rows ∧
  ∃ rest,
    rows ++ rest ≡ₚ eligible_rows (jobs db) (channels db) ∧
    Forall (λ r', Forall (λ r, job_order r r') rows) rest ∧
    (rest = [] ∨ Z.of_nat (length rows) = limit).
Proof.
  intros Hpos (ordered & Hperm & Hsorted0 & ->).
  set (n := Z.to_nat limit).
  assert (Hsorted : StronglySorted job_order
                      (take n ordered ++ drop n ordered)).
  { by rewrite take_drop. }
  split; [|split; [|split]].
  - apply Forall_forall. intros r Hr.
    apply (subseteq_take n ordered) in Hr. rewrite Hperm in Hr.
    apply elem_of_pending_active in Hr as (j & c & Hj & Hc & Hsel & ->).
    apply selectable_spec in Hsel as (? & ? & ?). by exists j, c.
  - rewrite length_take. lia.
  - by apply StronglySorted_app_1_l in Hsorted.
  - exists (drop n ordered). split; [|split].
    + by rewrite take_drop, <- pending_active_eligible.
    + apply Forall_forall. intros r' Hr'. apply Forall_forall. intros r Hr.
      by apply (StronglySorted_app_1_elem_of _ _ _ _ _ Hsorted).
    + destruct (decide (n ≤ length ordered)%nat) as [Hle|Hgt].
      * right. rewrite length_take. lia.
      * left. apply drop_ge. lia.
Qed.

(** Two admitted answers differ at most in the order of ties. *)
Lemma query_result_keys (db : DB) (limit : Z) rows rows' :
  query_result db limit rows → query_result db limit rows' →
  sort_key <$> rows' = sort_key <$> rows ∧
  (NoDup (sort_key <$> eligible_rows (jobs db) (channels db)) →
   rows' = rows).
Proof.
  intros (o & Hp & Hs & ->) (o' & Hp' & Hs' & ->).
  assert (Hpp : o' ≡ₚ o) by (by rewrite Hp, Hp').
  split.
  - rewrite !fmap_take. f_equal. by apply sorted_keys_unique.
  - intros Hnd. f_equal.
    apply (StronglySorted_unique_strong job_order); [|done..].
    intros x1 x2 Hx1 Hx2 H12 H21.
    rewrite <- pending_active_eligible in Hnd.
    apply (NoDup_fmap_inj sort_key _ x1 x2 Hnd).
    + by rewrite <- Hp'.
    + by rewrite <- Hp.
    + unfold job_order in *. unfold sort_key. f_equal; lia.
Qed.

(** The execution modelled by [get_worker_jobs] gives an admitted answer,
    for any order of the rows. *)
Lemma get_worker_jobs_admitted (db db' : DB) (worker_id : string) limit :
  jobs db' ≡ₚ jobs db → channels db' ≡ₚ channels db → 0 ≤ limit →
  ∃ rows, get_worker_jobs db' worker_id limit = Return rows ∧
          query_result db limit rows.
Proof.
  intros Hj Hc Hpos. unfold get_worker_jobs.
  destruct (Z.ltb_spec limit 0) as [Hneg|_]; [lia|].
  eexists. split; [done|].
  exists (merge_sort job_order (pending_active (jobs db') (channels db'))).
  split; [|split; [|done]].
  - rewrite merge_sort_Permutation. by apply pending_active_Permutation.
  - apply StronglySorted_merge_sort; apply _.
Qed.

(** C9 (amended): for every ledger state and every limit that is not
    negative, the selection answers, and every answer the query admits has
    rows that each come from a [pending] job joined with its [active]
    channel, at most [limit] of them, in non-increasing priority with
    non-decreasing creation time among equal priorities; the rows are the
    head of the whole ordered selection of the tables (no row left out
    precedes a returned one, and rows are left out only when the limit is
    reached).  The answer is determined by the ledger state up to the
    order of ties: two answers carry the same sequence of priorities and
    creation times, and are the same answer when no two selected rows
    share both.  A negative limit is refused. *)
Theorem get_worker_jobs_ordered (db db' : DB) (worker_id : string)
    (limit : Z) :
  jobs db' ≡ₚ jobs db → channels db' ≡ₚ channels db →
  if limit <? 0 then
    get_worker_jobs db' worker_id limit
    = Raise (StorageRejected "LIMIT must not be negative")
  else
    (∃ rows, get_worker_jobs db' worker_id limit = Return rows ∧
             query_result db limit rows) ∧
    ∀ rows, query_result db limit rows →
      Forall (λ r, ∃ j c,
                j ∈ jobs db ∧ c ∈ channels db ∧
                job_channel_id j = channel_id c ∧
                job_status j = "pending" ∧ channel_status c = "active" ∧
                r = listing j c) rows ∧
      Z.of_nat (length rows) ≤ limit ∧
      StronglySorted job_order rows ∧
      (∃ rest,
         rows ++ rest ≡ₚ eligible_rows (jobs db) (channels db) ∧
         Forall (λ r', Forall (λ r, job_order r r') rows) rest ∧
         (rest = [] ∨ Z.of_nat (length rows) = limit)) ∧
      ∀ rows', query_result db limit rows' →
        sort_key <$> rows' = sort_key <$> rows ∧
        (NoDup (sort_key <$> eligible_rows (jobs db) (channels db)) →
         rows' = rows).
Proof.
  intros Hj Hc. destruct (Z.ltb_spec limit 0) as [Hneg|Hpos].
  - unfold get_worker_jobs. by rewrite (proj2 (Z.ltb_lt _ _) Hneg).
  - split.
    { exact (get_worker_jobs_admitted db db' worker_id limit Hj Hc Hpos). }
    intros rows Hrows.
    destruct (query_result_ordered db limit rows Hpos Hrows)
      as (Hsound & Hlen & Hsorted & Hrest).
    split; [exact Hsound|]. split; [exact Hlen|]. split; [exact Hsorted|].
    split; [exact Hrest|].
    intros rows' Hrows'.
    exact (query_result_keys db limit rows rows' Hrows Hrows').
Qed.

End job_selection.

Lemma get_worker_jobs_ordered_witness :
  let a := Sample.job "a" 1 5 "pending" None 10 None in
  let b := Sample.job "b" 1 5 "pending" None 20 None in
  let c := Sample.job "c" 1 7 "pending" None 30 None in
  let db := Sample.ledger [a; b; c] in
  let db' := Sample.ledger [b; c; a] in
  Writer.jobs db' ≡ₚ Writer.jobs db ∧
  Writer.channels db' ≡ₚ Writer.channels db ∧
  ∃ rows, Writer.get_worker_jobs db' "w1" 2 = Return rows ∧
          Writer.query_result db 2 rows.
Proof.
  intros a b c db db'.
  assert (Hj : Writer.jobs db' ≡ₚ Writer.jobs db).
  { change ([b; c; a] ≡ₚ [a; b; c]).
    change ([b; c] ++ [a] ≡ₚ [a] ++ [b; c]). apply Permutation_app_comm. }
  assert (Hc : Writer.channels db' ≡ₚ Writer.channels db) by reflexivity.
  split; [exact Hj|]. split; [exact Hc|].
  exact (proj1 (get_worker_jobs_ordered db db' "w1" 2 Hj Hc)).
Defined.

(** C9, the claim as stated fails: two jobs tie on priority and creation
    time, and the limit is one.  The same two rows in either order are the
    same ledger state, both answers follow the ordering, and they name
    different jobs. *)
Lemma get_worker_jobs_tie_is_undetermined :
  let a := Sample.job "a" 1 5 "pending" None 10 None in
  let b := Sample.job "b" 1 5 "pending" None 10 None in
  let db := Sample.ledger [a; b] in
  let db' := Sample.ledger [b; a] in
  Writer.jobs db' ≡ₚ Writer.jobs db ∧
  Writer.channels db' = Writer.channels db ∧
  Writer.workers db' = Writer.workers db ∧
  Writer.l_job_uuid <$> default [] (match Writer.get_worker_jobs db "w1" 1 with
                                    | Return rows => Some rows
                                    | _ => None
                                    end) = ["a"] ∧
  Writer.l_job_uuid <$> default [] (match Writer.get_worker_jobs db' "w1" 1 with
                                    | Return rows => Some rows
                                    | _ => None
                                    end) = ["b"] ∧
  Writer.get_worker_jobs db "w1" 1 ≠ Writer.get_worker_jobs db' "w1" 1.
Proof.
  intros a b db db'.
  split; [apply perm_swap|]. split; [reflexivity|]. split; [reflexivity|].
  split; [vm_compute; reflexivity|]. split; [vm_compute; reflexivity|].
  vm_compute. discriminate.
Qed.

(* ===================================================================== *)
(** ** Storage write: [insert_messages]                                   *)
(* ===================================================================== *)

Section storage_write.
Import Writer.
Context {dumps_reactions : JsonDumps (list (string * Z))}.
Context {dumps_dict : JsonDumps (list (string * Json))}.

Implicit Types (tbl : gmap (Z * Z) MessageRow) (rec : Z * MessageRow).

Lemma keeps_immutable_refl row : keeps_immutable row row.
Proof. by repeat split. Qed.

Lemma keeps_immutable_on_conflict old row excluded :
  keeps_immutable old row → keeps_immutable old (on_conflict row excluded).
Proof. unfold keeps_immutable. simpl. tauto. Qed.

Lemma takes_mutable_on_conflict row excluded :
  takes_mutable excluded (on_conflict row excluded).
Proof. by repeat split. Qed.

Lemma upsert_lookup_same ch tbl rec row :
  tbl !! (ch, rec.1) = Some row →
  upsert ch tbl rec !! (ch, rec.1) = Some (on_conflict row rec.2).
Proof. intros H. unfold upsert. rewrite H. apply lookup_insert_eq. Qed.

Lemma upsert_lookup_other ch tbl rec k :
  k ≠ (ch, rec.1) → upsert ch tbl rec !! k = tbl !! k.
Proof.
  intros H. unfold upsert.
  destruct (tbl !! (ch, rec.1)); by rewrite lookup_insert_ne.
Qed.

Lemma upsert_dom ch tbl rec :
  dom (upsert ch tbl rec) = dom tbl ∪ {[ (ch, rec.1) ]}.
Proof.
  unfold upsert. destruct (tbl !! (ch, rec.1)); rewrite dom_insert_L;
    set_solver.
Qed.

Lemma executemany_app ch tbl l1 l2 :
  executemany ch tbl (l1 ++ l2) = executemany ch (executemany ch tbl l1) l2.
Proof. apply foldl_app. Qed.

(** A stored row survives any batch with its immutable columns. *)
Lemma executemany_keeps ch tbl recs k old row :
  tbl !! k = Some row → keeps_immutable old row →
  ∃ row', executemany ch tbl recs !! k = Some row' ∧
          keeps_immutable old row'.
Proof.
  revert tbl row. induction recs as [|rec recs IH]; intros tbl row Hk Hold.
  - by exists row.
  - simpl. destruct (decide (k = (ch, rec.1))) as [->|Hne].
    + eapply IH; [by apply upsert_lookup_same|].
      by apply keeps_immutable_on_conflict.
    + eapply IH; [by rewrite upsert_lookup_other|done].
Qed.

(** Records addressed to other keys do not touch the row under [k]. *)
Lemma executemany_other ch tbl recs k :
  Forall (λ rec, (ch, rec.1) ≠ k) recs →
  executemany ch tbl recs !! k = tbl !! k.
Proof.
  revert tbl. induction recs as [|rec recs IH]; intros tbl Hall; [done|].
  apply Forall_cons in Hall as [Hrec Hall]. simpl.
  rewrite IH by done. by apply upsert_lookup_other.
Qed.

Lemma executemany_dom ch tbl recs :
  dom (executemany ch tbl recs)
  = dom tbl ∪ list_to_set ((λ rec, (ch, rec.1)) <$> recs).
Proof.
  revert tbl. induction recs as [|rec recs IH]; intros tbl; simpl.
  - set_solver.
  - rewrite IH, upsert_dom. set_solver.
Qed.

Lemma insert_messages_table db now ch msgs :
  messages (insert_messages db now ch msgs).2
  = executemany ch (messages db) (to_record <$> msgs).
Proof. by destruct msgs. Qed.


End storage_write.


(* ===================================================================== *)
(** ** Ingestion queue: [add_batch], backup and restore                   *)
(* ===================================================================== *)

Section ingestion_queue.
Import Queue.
Context {dumps_envelope : JsonDumps Envelope}.
Variable json_loads : string → PyExc + Envelope.

Lemma put_never_raises q item e : put q item ≠ Raise e.
Proof. unfold put. by destruct (full q). Qed.

Lemma put_full q item : full q = true → put q item = Suspend.
Proof. unfold put. by intros ->. Qed.

Lemma put_not_full q item :
  full q = false →
  put q item = Return (mkAsyncQueue (maxsize q) (items q ++ [item])).
Proof. unfold put. by intros ->. Qed.

(** C3: what [add_batch] does for every queue state.  It never raises, so
    no [QueueFull] (and no "Queue is full" exception) ever reaches the
    caller; on a queue that holds [maxsize] envelopes the call is parked
    on [queue.put], with queue and backup store as they were; otherwise it
    returns the new batch id and the envelope is last in the queue. *)
Theorem add_batch_outcome (mq : MessageQueue) (srv : Redis)
    (uuid4 utcnow w : string) (ch : Z) (msgs : list Writer.Message)
    (jid : option string) :
  match add_batch mq srv uuid4 utcnow w ch msgs jid with
  | (Raise _, _, _) => False
  | (Suspend, mq', srv') =>
      full (queue mq) = true ∧ mq' = mq ∧ srv' = srv
  | (Return bid, mq', _) =>
      full (queue mq) = false ∧ bid = uuid4 ∧
      items (queue mq')
      = items (queue mq) ++ [mkEnvelope uuid4 w ch jid msgs utcnow 0]
  end.
Proof.
  unfold add_batch, put. destruct (full (queue mq)); simpl; done.
Qed.

(** The failing input of C3: a queue of capacity one that holds one
    envelope.  The producer is parked; it is not rejected. *)
Example add_batch_on_full_queue srv :
  let mq := mkMessageQueue 1 (mkAsyncQueue 1 [Sample.envelope "b0"]) true in
  full (queue mq) = true ∧
  add_batch mq srv "b1" "t" "w1" 1 [Sample.message 7 10 "hello"] None
  = (Suspend, mq, srv).
Proof. split; reflexivity. Qed.

(** *** The backup store *)

Lemma lrange_set_list k l (r : Redis) : lrange k (set_list k l r) = l.
Proof.
  unfold lrange, set_list. destruct l.
  - by rewrite lookup_delete_eq.
  - by rewrite lookup_insert_eq.
Qed.

Lemma lrange_lpush k v (r : Redis) :
  lrange k (lpush k v r) = v :: lrange k r.
Proof. unfold lpush. unfold lrange at 1. by rewrite lookup_insert_eq. Qed.

Lemma lrange_delete k (r : Redis) : lrange k (delete k r) = [].
Proof. unfold lrange. by rewrite lookup_delete_eq. Qed.

Lemma rpop_last k (r : Redis) l v :
  lrange k r = l ++ [v] → rpop k r = (Some v, set_list k l r).
Proof.
  intros H. unfold rpop. rewrite H, reverse_snoc.
  by rewrite reverse_involutive.
Qed.

Lemma drain_app resident acc : drain resident acc = acc ++ resident.
Proof.
  revert acc. induction resident as [|item rest IH]; intros acc; simpl.
  - by rewrite app_nil_r.
  - by rewrite IH, <- app_assoc.
Qed.

Lemma lrange_backup_pushes k (s0 : Redis) its :
  lrange k (foldl (λ s item, lpush k (json_dumps item) s) s0 its)
  = reverse (json_dumps <$> its) ++ lrange k s0.
Proof.
  revert s0. induction its as [|item rest IH]; intros s0; simpl; [done|].
  rewrite IH, lrange_lpush, reverse_cons, <- app_assoc. done.
Qed.

(** What a backup of a non-empty queue leaves in the store. *)
Lemma backup_nonempty mq srv :
  redis mq = true → items (queue mq) ≠ [] →
  items (queue (_backup_to_redis mq srv).1) = [] ∧
  lrange backup_key (_backup_to_redis mq srv).2
  = reverse (json_dumps <$> items (queue mq)).
Proof.
  intros Hr Hne. unfold _backup_to_redis. rewrite Hr. simpl.
  rewrite drain_app. simpl.
  destruct (items (queue mq)) as [|e its] eqn:Hits; [done|]. simpl.
  split; [done|].
  rewrite lrange_backup_pushes, lrange_lpush, lrange_delete.
  by rewrite reverse_cons.
Qed.

(** A backup of an empty queue does not touch the store. *)
Lemma backup_empty mq srv :
  items (queue mq) = [] → (_backup_to_redis mq srv).2 = srv.
Proof.
  intros He. unfold _backup_to_redis. destruct (redis mq); simpl; [|done].
  by rewrite He.
Qed.

(** The restore loop on any store content: [l] is the backup list, oldest
    record first, and the queue has room for [n] more envelopes. *)
Lemma restore_loop_restores n (l : list string) q srv :
  lrange backup_key srv = reverse l →
  (n ≤ length l)%nat →
  maxsize q ≤ 0 ∨ qsize q + Z.of_nat n ≤ maxsize q →
  ∃ ans new srv',
    restore_loop json_loads n q srv
    = (ans, mkAsyncQueue (maxsize q) (items q ++ new), srv') ∧
    restored_from json_loads l n ans new (reverse (lrange backup_key srv')).
Proof.
  revert l q srv. induction n as [|n IH]; intros l q srv Hsrv Hn Hcap.
  - exists (Return ()), [], srv. cbn [restore_loop]. rewrite app_nil_r.
    split; [by destruct q|].
    cbn [restored_from]. rewrite Hsrv, reverse_involutive, drop_0, take_0.
    split; [done|]. constructor.
  - destruct l as [|s l]; [simpl in Hn; lia|].
    rewrite reverse_cons in Hsrv.
    cbn [restore_loop]. rewrite (rpop_last _ _ _ _ Hsrv).
    unfold truthy_str.
    destruct (String.eqb_spec s "") as [->|Hs]; simpl negb; cbv iota.
    + destruct (IH l q (set_list backup_key (reverse l) srv))
        as (ans & new & srv' & Hloop & Hres).
      * apply lrange_set_list.
      * simpl in Hn. lia.
      * lia.
      * exists ans, new, srv'. split; [exact Hloop|].
        destruct ans as [[]|exc|]; cbn [restored_from] in *.
        -- destruct Hres as [Hleft Hnew]. split; [exact Hleft|].
           unfold decoded_from in *. rewrite firstn_cons, filter_cons.
           rewrite decide_False by (intros H; by apply H). exact Hnew.
        -- destruct Hres as (k & s & Hk & Hlk & Hne & Hexc & Hleft & Hnew).
           exists (S k), s. split; [lia|]. split; [exact Hlk|].
           split; [exact Hne|]. split; [exact Hexc|]. split; [exact Hleft|].
           unfold decoded_from in *. rewrite firstn_cons, filter_cons.
           rewrite decide_False by (intros H; by apply H). exact Hnew.
        -- done.
    + destruct (json_loads s) as [exc|item] eqn:Hdec.
      * exists (Raise exc), [], (set_list backup_key (reverse l) srv).
        rewrite app_nil_r. split; [by destruct q|].
        cbn [restored_from]. exists 0%nat, s. split; [lia|].
        split; [done|]. split; [exact Hs|]. split; [exact Hdec|].
        split; [by rewrite lrange_set_list, reverse_involutive|].
        constructor.
      * rewrite put_not_full.
        2:{ unfold full. destruct (Z.leb_spec (maxsize q) 0); [done|].
            apply Z.leb_gt. lia. }
        destruct (IH l (mkAsyncQueue (maxsize q) (items q ++ [item]))
                    (set_list backup_key (reverse l) srv))
          as (ans & new & srv' & Hloop & Hres).
        -- apply lrange_set_list.
        -- simpl in Hn. lia.
        -- unfold qsize in *. simpl. rewrite length_app. simpl. lia.
        -- exists ans, (item :: new), srv'. split.
           { etransitivity; [exact Hloop|]. simpl. by rewrite <- app_assoc. }
           destruct ans as [[]|exc|]; cbn [restored_from] in *.
           ++ destruct Hres as [Hleft Hnew]. split; [exact Hleft|].
              unfold decoded_from in *. rewrite firstn_cons, filter_cons.
              rewrite decide_True by done. by constructor.
           ++ destruct Hres as (k & s' & Hk & Hlk & Hne & Hexc & Hleft & Hnew).
              exists (S k), s'. split; [lia|]. split; [exact Hlk|].
              split; [exact Hne|]. split; [exact Hexc|].
              split; [exact Hleft|].
              unfold decoded_from in *. rewrite firstn_cons, filter_cons.
              rewrite decide_True by done. by constructor.
           ++ done.
Qed.

(** [connect] on a fresh queue of capacity [cap], for any store content. *)
Lemma connect_restored (srv : Redis) (cap : Z) :
  let up := connect json_loads (init cap) srv in
  let n := Z.to_nat (Z.min (llen backup_key srv) cap) in
  redis up.1.2 = true ∧
  maxsize (queue up.1.2) = cap ∧
  restored_from json_loads (reverse (lrange backup_key srv)) n up.1.1
    (items (queue up.1.2)) (reverse (lrange backup_key up.2)).
Proof.
  intros up n. subst up.
  unfold connect, _restore_from_redis. cbn [redis negb max_size queue init].
  destruct (Z.eqb_spec (llen backup_key srv) 0) as [H0|Hpos].
  - cbn [fst snd redis queue maxsize items]. subst n. rewrite H0.
    replace (Z.to_nat (0 `min` cap)) with 0%nat by lia.
    split; [done|]. split; [done|].
    cbn [restored_from]. rewrite take_0, drop_0. split; [done|]. constructor.
  - destruct (restore_loop_restores n (reverse (lrange backup_key srv))
                (mkAsyncQueue cap []) srv)
      as (ans & new & srv' & Hloop & Hres).
    + by rewrite reverse_involutive.
    + subst n. unfold llen. rewrite length_reverse. lia.
    + unfold qsize. simpl. subst n. lia.
    + fold n. rewrite Hloop. cbn [fst snd with_queue redis queue maxsize items].
      rewrite app_nil_l. done.
Qed.

(** When every envelope of [l] has a truthy JSON text that decodes, a
    restore from the records of [l] returns, and what it appends are the
    decodings of the first [n] envelopes. *)
Lemma restored_from_decodes (l : list Envelope) n ans new left :
  Forall (json_decodes json_loads) l →
  restored_from json_loads (json_dumps <$> l) n ans new left →
  ans = Return () ∧
  Forall2 (λ e e', json_loads (json_dumps e) = inr e') (take n l) new ∧
  left = json_dumps <$> drop n l.
Proof.
  intros Hok Hres.
  assert (Hfilter : ∀ l', Forall (json_decodes json_loads) l' →
            filter (λ s, s ≠ "") (json_dumps <$> l') = json_dumps <$> l').
  { intros l' Hl'. induction Hl' as [|e l' [Hne _] _ IH]; [done|].
    rewrite fmap_cons, filter_cons, decide_True by done. by rewrite IH. }
  destruct ans as [[]|exc|]; cbn [restored_from] in Hres.
  - destruct Hres as [-> Hnew]. split; [done|]. split; [|by rewrite fmap_drop].
    unfold decoded_from in Hnew. rewrite <- fmap_take in Hnew.
    rewrite Hfilter in Hnew by (by apply Forall_take).
    by apply Forall2_fmap_l in Hnew.
  - destruct Hres as (k & s & _ & Hlk & _ & Hexc & _).
    apply list_lookup_fmap_Some in Hlk as (e & -> & Hle).
    apply (Forall_lookup_1 _ _ _ _ Hok) in Hle as [_ [e' He']].
    congruence.
  - done.
Qed.

(** C5 (amended): shutdown followed by startup, on a connected store.  The
    backup empties the queue.  With no envelope resident it leaves the
    store as it is.  With [N >= 1] envelopes resident it replaces the backup
    list by their [N] JSON texts, and the restore of a fresh queue of
    capacity [cap] takes the [min N cap] oldest texts off the store (none
    for [cap <= 0]) and enqueues their decodings oldest first, raising the
    decoder's exception at a text that does not decode; when every text is
    truthy and decodes, the restore returns and the queue holds the
    decodings of the first [min N cap] envelopes in their original order,
    the other texts staying in the store.  A decoding need not be the
    envelope that was written. *)
Theorem backup_then_restore (mq : MessageQueue) (srv : Redis) (cap : Z) :
  redis mq = true →
  let resident := items (queue mq) in
  let records := json_dumps <$> resident in
  let n := Z.to_nat (Z.min (Z.of_nat (length resident)) cap) in
  let down := disconnect mq srv in
  let up := connect json_loads (init cap) down.2 in
  items (queue down.1) = [] ∧
  match resident with
  | [] => down.2 = srv
  | _ :: _ =>
      lrange backup_key down.2 = reverse records ∧
      restored_from json_loads records n up.1.1
        (items (queue up.1.2)) (reverse (lrange backup_key up.2)) ∧
      (Forall (json_decodes json_loads) resident →
       up.1.1 = Return () ∧
       Forall2 (λ e e', json_loads (json_dumps e) = inr e')
               (take n resident) (items (queue up.1.2)) ∧
       lrange backup_key up.2 = reverse (json_dumps <$> drop n resident))
  end.
Proof.
  intros Hr resident records n down up.
  destruct resident as [|e0 rest] eqn:Hres.
  - split.
    + subst down. unfold disconnect, _backup_to_redis. rewrite Hr.
      cbn [negb]. fold resident. rewrite Hres. done.
    + subst down. unfold disconnect. apply backup_empty. exact Hres.
  - assert (Hne : items (queue mq) ≠ []).
    { fold resident. by rewrite Hres. }
    destruct (backup_nonempty mq srv Hr Hne) as [Hq Hstore].
    fold resident in Hstore. rewrite Hres in Hstore.
    unfold disconnect in down. fold down in Hq, Hstore.
    split; [exact Hq|]. split; [exact Hstore|].
    pose proof (connect_restored down.2 cap) as (_ & _ & Hup).
    fold up in Hup. cbv zeta in Hup.
    assert (Hlen : llen backup_key down.2 = Z.of_nat (length (e0 :: rest))).
    { unfold llen. by rewrite Hstore, length_reverse, length_fmap. }
    rewrite Hlen, Hstore, reverse_involutive in Hup. fold n in Hup.
    split; [exact Hup|].
    intros Hok.
    destruct (restored_from_decodes _ _ _ _ _ Hok Hup) as (Hans & Hnew & Hl).
    split; [exact Hans|]. split; [exact Hnew|].
    by rewrite <- Hl, reverse_involutive.
Qed.

End ingestion_queue.

Lemma backup_then_restore_witness :
  let carrying bid :=
    Queue.mkEnvelope bid "w1" 1 None [Sample.message 7 10 "hello"] "t" 0 in
  let mq := Queue.mkMessageQueue 10
              (Queue.mkAsyncQueue 10 [carrying "b1"; carrying "b2";
                                      carrying "b3"]) true in
  let stale := <[Queue.backup_key := ["{b0}"]]> ∅ in
  let down := @Queue.disconnect Sample.dumps_envelope mq stale in
  let up := Queue.connect Sample.loads_envelope (Queue.init 2) down.2 in
  Queue.redis mq = true ∧
  Queue.lrange Queue.backup_key down.2 = ["{b3}"; "{b2}"; "{b1}"] ∧
  restored_from Sample.loads_envelope ["{b1}"; "{b2}"; "{b3}"] 2
    up.1.1 (Queue.items (Queue.queue up.1.2))
    (reverse (Queue.lrange Queue.backup_key up.2)) ∧
  Queue.items (Queue.queue up.1.2)
  = [Sample.envelope "b1"; Sample.envelope "b2"].
Proof.
  intros carrying mq stale down up.
  assert (Hr : Queue.redis mq = true) by reflexivity.
  split; [exact Hr|].
  pose proof (@backup_then_restore Sample.dumps_envelope
                Sample.loads_envelope mq stale 2 Hr) as H.
  split; [exact (proj1 (proj2 H))|].
  split; [exact (proj1 (proj2 (proj2 H)))|].
  reflexivity.
Defined.

(** C5, the claim as stated fails: one envelope is enqueued and consumed,
    so no envelope is resident at shutdown; the backup leaves the record
    written by [add_batch] in the store, and the restore of the next start
    puts that already consumed envelope back in the queue. *)
Lemma empty_queue_backup_keeps_store :
  let dumps := Sample.dumps_envelope in
  let loads := Sample.loads_envelope in
  let started := Queue.connect loads (Queue.init 10) ∅ in
  let added := @Queue.add_batch dumps started.1.2 started.2
                 "b1" "t" "w1" 1 [] None in
  let taken := Queue.get_batch added.1.2 in
  let down := @Queue.disconnect dumps taken.2 added.2 in
  let up := Queue.connect loads (Queue.init 10) down.2 in
  added.1.1 = Return "b1" ∧
  Queue.batch_id <$> taken.1 = Some "b1" ∧
  Queue.items (Queue.queue taken.2) = [] ∧
  Queue.lrange Queue.backup_key down.2 = ["{b1}"] ∧
  Queue.batch_id <$> Queue.items (Queue.queue up.1.2) = ["b1"].
Proof. vm_compute. repeat split; reflexivity. Qed.

(* ===================================================================== *)
(** ** Batch aggregator: [_flush_channel]                                 *)
(* ===================================================================== *)

Section aggregator.
Import Processor.
Context {Store : Type}.
Variable insert_messages :
  Store → Z → list Writer.Message → (PyExc + Z) * Store.

#[local] Abbreviation flush := (_flush_channel insert_messages).

(** A flush whose write raises: whatever the exception, the handler logs
    one error record and keeps the accumulator. *)
Lemma flush_channel_raises bp st ch msgs e st' :
  lookup_batch ch (current_batch bp) = Some msgs → msgs ≠ [] →
  insert_messages st ch msgs = (inl e, st') →
  flush bp st ch
  = (with_batch bp (current_batch bp)
       (log bp ++ [(ERROR, "Error flushing channel " +:+ pretty ch +:+
                           ": " +:+ str e)]), st').
Proof.
  intros Hl Hne Hw. unfold _flush_channel. rewrite Hl.
  destruct msgs as [|m msgs]; [done|]. by rewrite Hw.
Qed.

(** A flush of a non-empty partition passes its pending items to the
    writer, and the store afterwards is the one the writer leaves. *)
Lemma flush_channel_calls_writer bp st ch msgs :
  lookup_batch ch (current_batch bp) = Some msgs → msgs ≠ [] →
  (flush bp st ch).2 = (insert_messages st ch msgs).2.
Proof.
  intros Hl Hne. unfold _flush_channel. rewrite Hl.
  destruct msgs as [|m msgs]; [done|].
  by destruct (insert_messages st ch (m :: msgs)) as [[e|k] st'].
Qed.

(** C6: when the flush of a partition fails because the store is
    unavailable, the accumulator is left exactly as it was (every
    partition, every item, in order), the failure is logged, and the next
    flush of that partition hands the same items to the writer again. *)
Theorem flush_unavailable_keeps_pending (bp : BatchProcessor) (st st' : Store)
    (ch : Z) (msgs : list Writer.Message) (reason : string) :
  lookup_batch ch (current_batch bp) = Some msgs →
  msgs ≠ [] →
  insert_messages st ch msgs = (inl (StorageUnavailable reason), st') →
  let after := flush bp st ch in
  current_batch after.1 = current_batch bp ∧
  lookup_batch ch (current_batch after.1) = Some msgs ∧
  after.2 = st' ∧
  (flush after.1 after.2 ch).2 = (insert_messages st' ch msgs).2.
Proof.
  intros Hl Hne Hw after. subst after.
  rewrite (flush_channel_raises _ _ _ _ _ _ Hl Hne Hw). simpl.
  split; [done|]. split; [done|]. split; [done|].
  by apply flush_channel_calls_writer.
Qed.


End aggregator.

Lemma flush_unavailable_keeps_pending_witness :
  let m := Sample.message 7 10 "hello" in
  let bp := Processor.mkBatchProcessor 100 5 true [(1, [m])] 0 [] in
  Processor.lookup_batch 1 (Processor.current_batch bp) = Some [m] ∧
  [m] ≠ [] ∧
  Sample.unavailable_writer 0%nat 1 [m]
  = (inl (StorageUnavailable "connection refused"), 1%nat) ∧
  Processor.current_batch
    (Processor._flush_channel Sample.unavailable_writer bp 0%nat 1).1
  = [(1, [m])].
Proof.
  intros m bp.
  assert (Hl : Processor.lookup_batch 1 (Processor.current_batch bp)
               = Some [m]) by reflexivity.
  assert (Hne : [m] ≠ []) by discriminate.
  assert (Hw : Sample.unavailable_writer 0%nat 1 [m]
               = (inl (StorageUnavailable "connection refused"), 1%nat))
    by reflexivity.
  split; [exact Hl|]. split; [exact Hne|]. split; [exact Hw|].
  exact (proj1 (flush_unavailable_keeps_pending Sample.unavailable_writer
                  bp 0%nat 1%nat 1 [m] "connection refused" Hl Hne Hw)).
Defined.



(* ===================================================================== *)
(** ** Transport boundary: [submit_messages]                              *)
(* ===================================================================== *)

Section transport.
Import Routes.
Context {dumps_envelope : JsonDumps Queue.Envelope}.

(** The handler never lets an exception of its body through unchanged. *)
Lemma except_500_status {A} (body : outcome A) e :
  except_500 body = Raise e → ∃ detail, e = HTTPException 500 detail.
Proof. destruct body; simpl; intros [= <-]; eauto. Qed.

(** C10 at its failing input: a batch with no messages.  The request is
    refused before anything is enqueued and the queue and the backup store
    are unchanged, but the [HTTPException] with status 400 raised by the
    validation is caught by the handler's own [except Exception] clause
    and re-raised with status 500, so the producer sees a server error. *)
Theorem submit_messages_empty_batch (ch : Z) (jid : option string)
    (worker_id : string) (mq : Queue.MessageQueue) (srv : Queue.Redis)
    (uuid4 utcnow : string) :
  submit_messages (mkMessageBatch ch jid []) worker_id mq srv uuid4 utcnow
  = (Raise (HTTPException 500 (str (HTTPException 400 "Empty message batch"))),
     mq, srv).
Proof. reflexivity. Qed.

(** X22: the same happens to a batch of more than 1000 messages: it is
    refused with status 500 and nothing is enqueued. *)
Lemma submit_messages_oversized_batch batch worker_id mq srv uuid4 utcnow :
  (1000 < length (messages batch))%nat →
  submit_messages batch worker_id mq srv uuid4 utcnow
  = (Raise (HTTPException 500
              (str (HTTPException 400 "Batch too large (max 1000 messages)"))),
     mq, srv).
Proof.
  intros Hlen. unfold submit_messages.
  destruct (messages batch) as [|m ms] eqn:Hm; [simpl in Hlen; lia|].
  apply Nat.ltb_lt in Hlen. by rewrite Hlen.
Qed.

(** No answer of the endpoint carries status 400. *)
Lemma submit_messages_never_400 batch worker_id mq srv uuid4 utcnow c d :
  (submit_messages batch worker_id mq srv uuid4 utcnow).1.1
  = Raise (HTTPException c d) → c = 500.
Proof.
  unfold submit_messages.
  destruct (match messages batch with [] => _ | _ => _ end) as [[body mq'] srv'].
  simpl. intros H. apply except_500_status in H as [detail H]. congruence.
Qed.

(** X21: a batch of 1 to 1000 messages is accepted when the queue has room: the
    answer carries the new batch id and the number of messages, and the
    envelope is last in the queue. *)
Lemma submit_messages_accepted batch worker_id mq srv uuid4 utcnow :
  messages batch ≠ [] →
  (length (messages batch) ≤ 1000)%nat →
  Queue.full (Queue.queue mq) = false →
  let r := submit_messages batch worker_id mq srv uuid4 utcnow in
  r.1.1 = Return (mkMessageResponse true uuid4
                    (Z.of_nat (length (messages batch)))
                    "Messages queued for processing") ∧
  Queue.items (Queue.queue r.1.2)
  = Queue.items (Queue.queue mq) ++
    [Queue.mkEnvelope uuid4 worker_id (channel_id batch) (job_id batch)
                      (messages batch) utcnow 0].
Proof.
  intros Hne Hlen Hfull. unfold submit_messages.
  destruct (messages batch) as [|m ms] eqn:Hm; [done|].
  apply Nat.ltb_ge in Hlen. rewrite Hlen.
  unfold Queue.add_batch, Queue.put. rewrite Hfull. simpl. done.
Qed.

End transport.

(* ===================================================================== *)
(** ** Storage write: repeated and first deliveries                       *)
(* ===================================================================== *)

Section storage_write_batches.
Import Writer.
Context {dumps_reactions : JsonDumps (list (string * Z))}.
Context {dumps_dict : JsonDumps (list (string * Json))}.

Implicit Types (tbl : gmap (Z * Z) MessageRow) (rec : Z * MessageRow).

Lemma on_conflict_twice a b c :
  on_conflict (on_conflict a b) c = on_conflict a c.
Proof. reflexivity. Qed.

Lemma on_conflict_self a : on_conflict a a = a.
Proof. by destruct a. Qed.

Lemma upsert_lookup ch tbl rec :
  upsert ch tbl rec !! (ch, rec.1) = after_record (tbl !! (ch, rec.1)) rec.
Proof.
  unfold upsert, after_record.
  destruct (tbl !! (ch, rec.1)); by rewrite lookup_insert_eq.
Qed.

(** The row under [(ch, i)] after a batch: the records addressed to [i]
    are applied in order to what was stored. *)
Lemma executemany_lookup ch tbl recs i :
  executemany ch tbl recs !! (ch, i)
  = foldl after_record (tbl !! (ch, i)) (filter (λ rec, rec.1 = i) recs).
Proof.
  revert tbl. induction recs as [|rec recs IH]; intros tbl; [done|].
  simpl. rewrite IH, filter_cons.
  destruct (decide (rec.1 = i)) as [<-|Hne]; simpl.
  - by rewrite upsert_lookup.
  - rewrite upsert_lookup_other; [done|]. intros [= ?]. done.
Qed.

Lemma executemany_other_channel ch tbl recs c i :
  c ≠ ch → executemany ch tbl recs !! (c, i) = tbl !! (c, i).
Proof.
  intros Hc. apply executemany_other, Forall_forall.
  intros rec _ [= ?]. done.
Qed.

Lemma foldl_after_record_Some a recs :
  foldl after_record (Some a) recs
  = Some (match last recs with
          | Some rec => on_conflict a rec.2
          | None => a
          end).
Proof.
  revert a. induction recs as [|rec recs IH]; intros a; [done|].
  etransitivity; [exact (IH (on_conflict a rec.2))|].
  destruct recs as [|rec' recs]; [done|].
  rewrite last_cons_cons.
  destruct (last (rec' :: recs)) eqn:Hl; [done|]. by apply last_None in Hl.
Qed.

Lemma foldl_after_record_None rec recs :
  foldl after_record None (rec :: recs)
  = Some (match last recs with
          | Some l => on_conflict rec.2 l.2
          | None => rec.2
          end).
Proof. exact (foldl_after_record_Some rec.2 recs). Qed.

Lemma foldl_after_record_twice o recs :
  foldl after_record (foldl after_record o recs) recs
  = foldl after_record o recs.
Proof.
  destruct recs as [|rec recs]; [done|]. destruct o as [a|].
  - rewrite (foldl_after_record_Some a).
    destruct (last (rec :: recs)) as [l|] eqn:Hl;
      [|by apply last_None in Hl].
    by rewrite foldl_after_record_Some, Hl.
  - rewrite foldl_after_record_None, foldl_after_record_Some.
    destruct recs as [|rec' recs].
    + simpl. by rewrite on_conflict_self.
    + rewrite last_cons_cons.
      destruct (last (rec' :: recs)) as [l|] eqn:Hl;
        [done|by apply last_None in Hl].
Qed.

Lemma executemany_twice ch tbl recs :
  executemany ch (executemany ch tbl recs) recs = executemany ch tbl recs.
Proof.
  apply map_eq. intros [c i]. destruct (decide (c = ch)) as [->|Hc].
  - rewrite (executemany_lookup ch (executemany ch tbl recs)).
    rewrite (executemany_lookup ch tbl). apply foldl_after_record_twice.
  - by rewrite !executemany_other_channel.
Qed.

(** X1: a batch delivered a second time is answered with the same count
    and leaves the messages table exactly as the first delivery left it,
    whatever was stored before and whatever the batch repeats inside
    itself. *)
Theorem insert_messages_redelivery (db : DB) (now now' ch : Z)
    (msgs : list Message) :
  let first := insert_messages db now ch msgs in
  let second := insert_messages first.2 now' ch msgs in
  second.1 = first.1 ∧ messages second.2 = messages first.2.
Proof.
  intros first second. subst first second. split.
  - by destruct msgs.
  - rewrite !insert_messages_table. apply executemany_twice.
Qed.

Lemma filter_id_single i (pre post : list (Z * MessageRow)) rec :
  rec.1 = i →
  Forall (λ x, x.1 ≠ i) pre → Forall (λ x, x.1 ≠ i) post →
  filter (λ x, x.1 = i) (pre ++ rec :: post) = [rec].
Proof.
  intros Hi Hpre Hpost. rewrite filter_app, filter_cons.
  rewrite decide_True by done.
  assert (Hnil : ∀ l, Forall (λ x : Z * MessageRow, x.1 ≠ i) l →
                      filter (λ x, x.1 = i) l = []).
  { intros l. induction 1 as [|x l Hx _ IH]; [done|].
    rewrite filter_cons, decide_False by done. exact IH. }
  by rewrite (Hnil pre), (Hnil post).
Qed.

(** X2: the first delivery of an item.  When no row is stored under
    [(channel, id)] and the batch carries one item with that id, the row
    stored afterwards is the item's record, every column included. *)
Theorem insert_messages_first_insert (db : DB) (now ch : Z)
    (pre post : list Message) (m : Message) :
  messages db !! (ch, m_message_id m) = None →
  Forall (λ x, m_message_id x ≠ m_message_id m) pre →
  Forall (λ x, m_message_id x ≠ m_message_id m) post →
  messages (insert_messages db now ch (pre ++ m :: post)).2
    !! (ch, m_message_id m)
  = Some (to_record m).2.
Proof.
  intros Hnew Hpre Hpost.
  rewrite insert_messages_table, executemany_lookup, Hnew.
  rewrite fmap_app, fmap_cons.
  rewrite (filter_id_single (m_message_id m) _ _ (to_record m)); [done|done|..].
  - apply Forall_fmap. eapply Forall_impl; [exact Hpre|]. by intros x Hx.
  - apply Forall_fmap. eapply Forall_impl; [exact Hpost|]. by intros x Hx.
Qed.

End storage_write_batches.

Lemma insert_messages_first_insert_witness :
  let db := Writer.mkDB [] [] ∅ ∅ in
  let m := Sample.message 7 25 "second" in
  Writer.messages db !! (1, Writer.m_message_id m) = None ∧
  Forall (λ x, Writer.m_message_id x ≠ Writer.m_message_id m)
         [Sample.message 6 1 "other"] ∧
  Forall (λ x, Writer.m_message_id x ≠ Writer.m_message_id m) [] ∧
  Writer.messages
    (@Writer.insert_messages Sample.dumps_reactions Sample.dumps_dict
       db 50 1 ([Sample.message 6 1 "other"] ++ m :: [])).2
    !! (1, Writer.m_message_id m)
  = Some (@Writer.to_record Sample.dumps_reactions Sample.dumps_dict m).2.
Proof.
  intros db m.
  assert (Hnew : Writer.messages db !! (1, Writer.m_message_id m) = None)
    by reflexivity.
  assert (Hpre : Forall (λ x, Writer.m_message_id x ≠ Writer.m_message_id m)
                        [Sample.message 6 1 "other"]).
  { repeat constructor. discriminate. }
  assert (Hpost : Forall (λ x, Writer.m_message_id x ≠ Writer.m_message_id m)
                         []) by constructor.
  split; [exact Hnew|]. split; [exact Hpre|]. split; [exact Hpost|].
  exact (@insert_messages_first_insert Sample.dumps_reactions
           Sample.dumps_dict db 50 1 _ [] m Hnew Hpre Hpost).
Defined.

(* ===================================================================== *)
(** ** Storage write: channel statistics and what a write leaves alone    *)
(* ===================================================================== *)

Section storage_write_channel.
Import Writer.
Context {dumps_reactions : JsonDumps (list (string * Z))}.
Context {dumps_dict : JsonDumps (list (string * Json))}.

(** [max_date] is the greatest date stored for the channel, if any. *)
Lemma max_date_spec (ch : Z) (tbl : gmap (Z * Z) MessageRow) :
  match max_date ch tbl with
  | Some d =>
      (∃ i row, tbl !! (ch, i) = Some row ∧ date row = d) ∧
      (∀ i row, tbl !! (ch, i) = Some row → date row ≤ d)
  | None => ∀ i, tbl !! (ch, i) = None
  end.
Proof.
  unfold max_date. apply (map_fold_weak_ind (λ r m,
    match r with
    | Some d =>
        (∃ i row, m !! (ch, i) = Some row ∧ date row = d) ∧
        (∀ i row, m !! (ch, i) = Some row → date row ≤ d)
    | None => ∀ i, m !! (ch, i) = None
    end)).
  - intros i. apply lookup_empty.
  - intros [c j] x m r Hfresh IH. simpl.
    destruct (decide (c = ch)) as [->|Hc].
    + destruct r as [d|].
      * destruct IH as [(i & row & Hrow & Hd) Hmax]. split.
        -- destruct (Z.max_spec d (date x)) as [[_ ->]|[_ ->]].
           ++ exists j, x. by rewrite lookup_insert_eq.
           ++ exists i, row. split; [|done].
              rewrite lookup_insert_ne; [done|]. intros [= ->]. congruence.
        -- intros i' row' Hl. apply lookup_insert_Some in Hl
             as [[[= <-] <-]|[_ Hl]]; [lia|].
           specialize (Hmax _ _ Hl). lia.
      * split.
        -- exists j, x. by rewrite lookup_insert_eq.
        -- intros i' row' Hl. apply lookup_insert_Some in Hl
             as [[[= <-] <-]|[_ Hl]]; [lia|].
           by rewrite IH in Hl.
    + destruct r as [d|].
      * destruct IH as [(i & row & Hrow & Hd) Hmax]. split.
        -- exists i, row. split; [|done].
           rewrite lookup_insert_ne; [done|]. intros [= ? ?]. done.
        -- intros i' row' Hl. rewrite lookup_insert_ne in Hl; [eauto|].
           intros [= ? ?]. done.
      * intros i. rewrite lookup_insert_ne; [done|]. intros [= ? ?]. done.
Qed.

Lemma update_channel_stats_Forall2 ch now last cs :
  Forall2 (λ c c',
     channel_id c' = channel_id c ∧ username c' = username c ∧
     channel_status c' = channel_status c ∧
     if decide (channel_id c = ch)
     then last_parsed_at c' = Some now ∧ updated_at c' = Some now ∧
          last_message_date c' = last
     else c' = c)
    cs (update_channel_stats ch now last cs).
Proof.
  unfold update_channel_stats.
  induction cs as [|c cs IH]; simpl; constructor; [|exact IH].
  by destruct (decide (channel_id c = ch)).
Qed.

(** X3: after a write of at least one message for a channel, every row of
    that channel in [channels] has [last_parsed_at] and [updated_at] set
    to the current time and [last_message_date] set to the latest date
    over all messages now stored for the channel, old and new; the rows of
    all other channels are as before. *)
Theorem insert_messages_channel_stats (db : DB) (now ch : Z)
    (msgs : list Message) :
  msgs ≠ [] →
  let db' := (insert_messages db now ch msgs).2 in
  ∃ d,
    (∃ i row, messages db' !! (ch, i) = Some row ∧ date row = d) ∧
    (∀ i row, messages db' !! (ch, i) = Some row → date row ≤ d) ∧
    Forall2 (λ c c',
       channel_id c' = channel_id c ∧ username c' = username c ∧
       channel_status c' = channel_status c ∧
       if decide (channel_id c = ch)
       then last_parsed_at c' = Some now ∧ updated_at c' = Some now ∧
            last_message_date c' = Some d
       else c' = c)
      (channels db) (channels db').
Proof.
  intros Hne db'. subst db'.
  destruct msgs as [|m msgs]; [done|].
  set (tbl := executemany ch (messages db) (to_record <$> m :: msgs)).
  assert (Hdb : (insert_messages db now ch (m :: msgs)).2
                = mkDB (jobs db)
                    (update_channel_stats ch now (max_date ch tbl)
                       (channels db))
                    (workers db) tbl) by reflexivity.
  rewrite Hdb. simpl.
  pose proof (max_date_spec ch tbl) as Hmax.
  destruct (max_date ch tbl) as [d|].
  - exists d. destruct Hmax as [Hex Hle]. split; [done|]. split; [done|].
    apply update_channel_stats_Forall2.
  - exfalso. specialize (Hmax (m_message_id m)).
    assert (Hin : (ch, m_message_id m) ∈ dom tbl).
    { unfold tbl. rewrite executemany_dom. set_solver. }
    apply elem_of_dom in Hin as [row Hrow]. congruence.
Qed.

(** X4: a write for one channel leaves the jobs, the workers and the
    messages of every other channel as they are; an empty batch changes
    nothing at all and is answered with zero. *)
Theorem insert_messages_frame (db : DB) (now ch : Z) (msgs : list Message) :
  let r := insert_messages db now ch msgs in
  jobs r.2 = jobs db ∧ workers r.2 = workers db ∧
  (∀ c i, c ≠ ch → messages r.2 !! (c, i) = messages db !! (c, i)) ∧
  (msgs = [] → r = (0, db)).
Proof.
  intros r. subst r. split; [|split; [|split]].
  - by destruct msgs.
  - by destruct msgs.
  - intros c i Hc. rewrite insert_messages_table.
    apply executemany_other, Forall_forall. intros rec _ [= ?]. done.
  - by intros ->.
Qed.

End storage_write_channel.

Lemma insert_messages_channel_stats_witness :
  let db := Writer.mkDB [] [Sample.channel 1 "active"] ∅ ∅ in
  let msgs := [Sample.message 7 25 "second"] in
  msgs ≠ [] ∧
  ∃ d, Forall (λ c, Writer.last_message_date c = Some d)
         (Writer.channels
            (@Writer.insert_messages Sample.dumps_reactions Sample.dumps_dict
               db 50 1 msgs).2).
Proof.
  intros db msgs.
  assert (Hne : msgs ≠ []) by discriminate.
  split; [exact Hne|].
  destruct (@insert_messages_channel_stats Sample.dumps_reactions
              Sample.dumps_dict db 50 1 msgs Hne) as (d & _ & _ & Hall).
  exists d.
  apply Forall2_cons_inv_l in Hall as (c' & cs' & Hc & Hrest & Heq).
  apply Forall2_nil_inv_l in Hrest as ->. rewrite Heq.
  repeat constructor. simpl in Hc. apply Hc.
Defined.

(* ===================================================================== *)
(** ** Job ledger: failures, unknown jobs, repeated sweeps                *)
(* ===================================================================== *)

Section ledger_more.
Import Writer.

Lemma fail_job_workers db now job_id err caller :
  workers (Routes.fail_job db now job_id err caller).2
  = update_worker_stats (Some caller) bump_failed (workers db).
Proof. reflexivity. Qed.

(** X5: fail-job sets every job carrying the requested id to [failed],
    records the error message and the completion time and adds one to the
    job's retry count; it adds one to [jobs_failed] on the worker record
    of the caller, when the caller's id is not empty and the record
    exists, and leaves the other counters and the other workers alone. *)
Theorem fail_job_effects
    (db : DB) (now : Z) (job_id err caller : string) :
  let db' := (Routes.fail_job db now job_id err caller).2 in
  Forall2 (updated_as job_id (λ j j',
             job_status j' = "failed" ∧
             error_message j' = Some err ∧
             completed_at j' = Some now ∧
             retry_count j' = retry_count j + 1 ∧
             job_worker_id j' = job_worker_id j ∧
             messages_collected j' = messages_collected j))
          (jobs db) (jobs db') ∧
  ∀ w, match workers db !! w, workers db' !! w with
       | Some a, Some b =>
           if decide (w = caller ∧ caller ≠ "")
           then jobs_failed b = jobs_failed a + 1 ∧
                jobs_completed b = jobs_completed a ∧
                messages_processed b = messages_processed a
           else b = a
       | None, None => True
       | _, _ => False
       end.
Proof.
  intros db'. subst db'. split.
  - rewrite fail_job_jobs. by apply update_jobs_Forall2.
  - intros w. rewrite fail_job_workers, update_worker_stats_lookup.
    destruct (workers db !! w) as [a|]; destruct (decide _); simpl; done.
Qed.

Lemma update_jobs_unknown job_id f js :
  job_id ∉ job_uuid <$> js → update_jobs job_id f js = js.
Proof.
  intros Hnot. unfold update_jobs.
  induction js as [|j js IH]; [done|].
  rewrite fmap_cons in Hnot. apply not_elem_of_cons in Hnot as [Hj Hnot].
  rewrite fmap_cons, decide_False by done. by rewrite IH.
Qed.

(** X6: a start-job, complete-job or fail-job request for an id that no
    job carries is answered with success all the same and leaves the jobs
    table exactly as it was. *)
Theorem unknown_job_is_acknowledged
    (db : DB) (now : Z) (job_id caller err : string) (n : Z) :
  job_id ∉ job_uuid <$> jobs db →
  let started := Routes.start_job db now job_id caller in
  let completed := Routes.complete_job db now job_id n caller in
  let failed := Routes.fail_job db now job_id err caller in
  (started.1 = Return (Routes.mkAck true "Job started") ∧
   jobs started.2 = jobs db) ∧
  (completed.1 = Return (Routes.mkAck true "Job completed") ∧
   jobs completed.2 = jobs db) ∧
  (failed.1 = Return (Routes.mkAck true "Job marked as failed") ∧
   jobs failed.2 = jobs db).
Proof.
  intros Hnot started completed failed. subst started completed failed.
  split; [|split]; (split; [reflexivity|]).
  - rewrite start_job_jobs. by apply update_jobs_unknown.
  - rewrite complete_job_jobs. by apply update_jobs_unknown.
  - rewrite fail_job_jobs. by apply update_jobs_unknown.
Qed.

Lemma expired_mono now1 now2 days j :
  now1 ≤ now2 → expired now1 days j = true → expired now2 days j = true.
Proof.
  intros Hle. rewrite !expired_spec.
  intros [Ht (t & Hc & Hlt)]. split; [done|]. exists t. split; [done|lia].
Qed.

(** X7: retention sweeps compose.  A sweep at a later time after a sweep
    at an earlier time, with the same window, leaves the same jobs, in the
    same order, as the later sweep alone; in particular a sweep repeated
    at the same instant removes nothing more.  The jobs kept by a sweep
    keep their relative order. *)
Theorem cleanup_old_jobs_compose (db : DB) (now1 now2 days : Z) :
  now1 ≤ now2 →
  jobs (cleanup_old_jobs (cleanup_old_jobs db now1 days) now2 days)
  = jobs (cleanup_old_jobs db now2 days) ∧
  jobs (cleanup_old_jobs db now2 days) `sublist_of` jobs db.
Proof.
  intros Hle. rewrite !cleanup_old_jobs_jobs. split.
  - induction (jobs db) as [|j js IH]; [done|].
    rewrite (filter_cons (λ j, expired now1 days j = false) j js).
    rewrite (filter_cons (λ j, expired now2 days j = false) j js).
    destruct (decide (expired now1 days j = false)) as [H1|H1].
    + rewrite filter_cons.
      destruct (decide (expired now2 days j = false)); by rewrite IH.
    + apply not_false_iff_true in H1.
      apply (expired_mono _ _ _ _ Hle) in H1.
      rewrite decide_False by congruence. exact IH.
  - apply sublist_filter.
Qed.

End ledger_more.

Lemma unknown_job_is_acknowledged_witness :
  let db := Sample.ledger [Sample.job "j1" 1 5 "running" (Some "w1") 10 None] in
  ("nope" ∉ (Writer.job_uuid <$> Writer.jobs db)) ∧
  Writer.jobs (Routes.complete_job db 20 "nope" 4 "w1").2 = Writer.jobs db.
Proof.
  intros db.
  assert (Hnot : "nope" ∉ (Writer.job_uuid <$> Writer.jobs db)).
  { intros Hin. apply list_elem_of_singleton in Hin. discriminate. }
  split; [exact Hnot|].
  exact (proj2 (proj1 (proj2
    (unknown_job_is_acknowledged db 20 "nope" "w1" "boom" 4 Hnot)))).
Defined.

Lemma cleanup_old_jobs_compose_witness :
  let db := Sample.ledger
              [Sample.job "old" 1 5 "completed" (Some "w1") 0 (Some 10);
               Sample.job "live" 1 5 "running" (Some "w1") 0 None] in
  1000000 ≤ 2000000 ∧
  Writer.jobs (Writer.cleanup_old_jobs
                 (Writer.cleanup_old_jobs db 1000000 7) 2000000 7)
  = Writer.jobs (Writer.cleanup_old_jobs db 2000000 7).
Proof.
  intros db.
  assert (Hle : 1000000 ≤ 2000000) by lia.
  split; [exact Hle|].
  exact (proj1 (cleanup_old_jobs_compose db 1000000 2000000 7 Hle)).
Defined.

(* ===================================================================== *)
(** ** Ingestion queue: order, capacity and the incremental backup        *)
(* ===================================================================== *)

Section queue_order.
Import Queue.
Context {dumps_envelope : JsonDumps Envelope}.

Lemma add_batch_not_full mq srv u t w ch msgs jid :
  full (queue mq) = false →
  add_batch mq srv u t w ch msgs jid
  = (Return u,
     with_queue mq (mkAsyncQueue (maxsize (queue mq))
                      (items (queue mq) ++ [mkEnvelope u w ch jid msgs t 0])),
     if redis mq
     then ltrim backup_key 0 9999
            (lpush backup_key (json_dumps (mkEnvelope u w ch jid msgs t 0)) srv)
     else srv).
Proof. intros Hf. unfold add_batch, put. by rewrite Hf. Qed.

Lemma full_false_room (q : AsyncQueue) (k : nat) :
  maxsize q ≤ 0 ∨ qsize q + Z.of_nat (S k) ≤ maxsize q → full q = false.
Proof.
  intros H. unfold full. destruct (Z.leb_spec (maxsize q) 0); [done|].
  apply Z.leb_gt. lia.
Qed.

Lemma add_all_room mq srv rs :
  maxsize (queue mq) ≤ 0 ∨
    qsize (queue mq) + Z.of_nat (length rs) ≤ maxsize (queue mq) →
  (add_all mq srv rs).1.1 = (λ r, Return (s_uuid4 r)) <$> rs ∧
  items (queue (add_all mq srv rs).1.2)
  = items (queue mq) ++ (envelope_of <$> rs) ∧
  maxsize (queue (add_all mq srv rs).1.2) = maxsize (queue mq).
Proof.
  revert mq srv. induction rs as [|r rs IH]; intros mq srv Hroom.
  - simpl. by rewrite app_nil_r.
  - cbn [add_all]. rewrite add_batch_not_full
      by (eapply full_false_room; exact Hroom).
    match goal with
    | |- context [add_all ?m ?s rs] =>
        specialize (IH m s); destruct (add_all m s rs) as [[os mq''] srv'']
    end.
    simpl in IH. destruct IH as (Hos & Hit & Hmax).
    { unfold qsize in *. simpl. rewrite length_app. simpl in *. lia. }
    simpl. rewrite Hos, Hit, Hmax, <- app_assoc. done.
Qed.

Lemma get_n_items (mq : MessageQueue) (k : nat) :
  (get_n k mq).1
  = (Some <$> take k (items (queue mq))) ++
    replicate (k - length (items (queue mq))) None ∧
  items (queue (get_n k mq).2) = drop k (items (queue mq)).
Proof.
  revert mq. induction k as [|k IH]; intros mq; [done|].
  cbn [get_n]. unfold get_batch, wait_for_get.
  destruct (items (queue mq)) as [|e its] eqn:Hits.
  - specialize (IH mq). destruct (get_n k mq) as [bs mq'']. simpl in *.
    destruct IH as [-> ->]. rewrite Hits. simpl.
    rewrite take_nil, drop_nil, Nat.sub_0_r. done.
  - specialize (IH (with_queue mq (mkAsyncQueue (maxsize (queue mq)) its))).
    destruct (get_n k _) as [bs mq'']. simpl in *.
    destruct IH as [-> ->]. done.
Qed.

(** X8: the queue is first in, first out.  When the queue has room for
    all of them, a series of submissions is accepted call by call, each
    answered with its batch id; the consumer's next calls then return the
    envelopes that were already waiting, followed by the new ones in
    submission order, each once, and the call after the last one returns
    nothing. *)
Theorem queue_is_fifo (mq : MessageQueue) (srv : Redis)
    (rs : list Submission) :
  maxsize (queue mq) ≤ 0 ∨
    qsize (queue mq) + Z.of_nat (length rs) ≤ maxsize (queue mq) →
  let added := add_all mq srv rs in
  let waiting := items (queue mq) ++ (envelope_of <$> rs) in
  added.1.1 = (λ r, Return (s_uuid4 r)) <$> rs ∧
  (get_n (S (length waiting)) added.1.2).1 = (Some <$> waiting) ++ [None] ∧
  items (queue (get_n (S (length waiting)) added.1.2).2) = [].
Proof.
  intros Hroom added waiting. subst added.
  destruct (add_all_room mq srv rs Hroom) as (Hos & Hit & _).
  split; [exact Hos|].
  destruct (get_n_items (add_all mq srv rs).1.2 (S (length waiting)))
    as [Hget Hleft].
  rewrite Hget, Hleft, Hit. fold waiting.
  rewrite take_ge, drop_ge by lia.
  replace (S (length waiting) - length waiting)%nat with 1%nat by lia.
  done.
Qed.

(** The restore loop never lets the queue exceed its capacity, whatever
    the store holds. *)
Lemma restore_loop_within_capacity json_loads n q srv :
  within_capacity q →
  within_capacity (restore_loop json_loads n q srv).1.2 ∧
  maxsize (restore_loop json_loads n q srv).1.2 = maxsize q.
Proof.
  revert q srv. induction n as [|n IH]; intros q srv Hq; [done|].
  cbn [restore_loop]. destruct (rpop backup_key srv) as [[s|] srv'].
  - destruct (truthy_str (Some s)); [|by apply IH].
    destruct (json_loads s) as [exc|item]; [done|].
    unfold put. destruct (full q) eqn:Hf; [done|].
    match goal with
    | |- context [restore_loop _ n ?q' srv'] =>
        destruct (IH q' srv') as [Hin Hmax]
    end.
    + unfold within_capacity, full, qsize in *. simpl. rewrite length_app.
      simpl. intros Hpos.
      destruct (Z.leb_spec (maxsize q) 0); [lia|].
      apply Z.leb_gt in Hf. lia.
    + split; [exact Hin|]. by rewrite Hmax.
  - by apply IH.
Qed.

(** X9: every operation of the queue keeps it within its capacity: a
    queue built with a positive [max_size] that holds at most that many
    envelopes still does after [add_batch], after [get_batch], after the
    shutdown backup and after a restore from any store content; none of
    them changes the capacity. *)
Theorem queue_stays_within_capacity (mq : MessageQueue) (srv : Redis)
    (json_loads : string → PyExc + Envelope)
    (u t w : string) (ch : Z) (msgs : list Writer.Message)
    (jid : option string) :
  within_capacity (queue mq) →
  let after q' := within_capacity q' ∧ maxsize q' = maxsize (queue mq) in
  after (queue (add_batch mq srv u t w ch msgs jid).1.2) ∧
  after (queue (get_batch mq).2) ∧
  after (queue (_backup_to_redis mq srv).1) ∧
  after (queue (_restore_from_redis json_loads mq srv).1.2).
Proof.
  intros Hq after. subst after. simpl. split; [|split; [|split]].
  - unfold add_batch, put. destruct (full (queue mq)) eqn:Hf; [done|].
    simpl. split; [|done].
    unfold within_capacity, full, qsize in *. simpl. rewrite length_app.
    simpl. intros Hpos. destruct (Z.leb_spec (maxsize (queue mq)) 0); [lia|].
    apply Z.leb_gt in Hf. lia.
  - unfold get_batch, wait_for_get.
    destruct (items (queue mq)) as [|e its] eqn:Hits; [done|].
    simpl. split; [|done].
    unfold within_capacity, qsize in *. rewrite Hits in Hq. simpl in *. lia.
  - unfold _backup_to_redis. destruct (redis mq); simpl; [|done].
    destruct (drain (items (queue mq)) []); simpl;
      (split; [|done]); unfold within_capacity, qsize; simpl; lia.
  - unfold _restore_from_redis. destruct (redis mq); simpl; [|done].
    destruct (llen backup_key srv =? 0); [done|].
    pose proof (restore_loop_within_capacity json_loads
      (Z.to_nat (llen backup_key srv `min` max_size mq)) (queue mq) srv Hq)
      as Hloop.
    destruct (restore_loop _ _ _ _) as [[r q] srv']. exact Hloop.
Qed.


End queue_order.

Lemma queue_is_fifo_witness :
  let mq := Queue.init 2 in
  let rs := [mkSubmission "b1" "t1" "w1" 1 [] None;
             mkSubmission "b2" "t2" "w2" 1 [] None] in
  (Queue.maxsize (Queue.queue mq) ≤ 0 ∨
   Queue.qsize (Queue.queue mq) + Z.of_nat (length rs)
     ≤ Queue.maxsize (Queue.queue mq)) ∧
  (@add_all Sample.dumps_envelope mq ∅ rs).1.1 = [Return "b1"; Return "b2"].
Proof.
  intros mq rs.
  assert (Hroom : Queue.maxsize (Queue.queue mq) ≤ 0 ∨
                  Queue.qsize (Queue.queue mq) + Z.of_nat (length rs)
                    ≤ Queue.maxsize (Queue.queue mq)).
  { right. vm_compute. discriminate. }
  split; [exact Hroom|].
  exact (proj1 (@queue_is_fifo Sample.dumps_envelope mq ∅ rs Hroom)).
Defined.

Lemma queue_stays_within_capacity_witness :
  let mq := Queue.mkMessageQueue 1
              (Queue.mkAsyncQueue 1 [Sample.envelope "b0"]) true in
  within_capacity (Queue.queue mq) ∧
  within_capacity
    (Queue.queue (@Queue.add_batch Sample.dumps_envelope mq ∅
                    "b1" "t" "w1" 1 [] None).1.2).
Proof.
  intros mq.
  assert (Hq : within_capacity (Queue.queue mq)).
  { intros _. vm_compute. discriminate. }
  split; [exact Hq|].
  exact (proj1 (proj1 (@queue_stays_within_capacity Sample.dumps_envelope
                         mq ∅ Sample.loads_envelope
                         "b1" "t" "w1" 1 [] None Hq))).
Defined.


(* ===================================================================== *)
(** ** Ingestion queue: restore at startup, restart cycles                *)
(* ===================================================================== *)

Section queue_restart.
Import Queue.
Context {dumps_envelope : JsonDumps Envelope}.
Variable json_loads : string → PyExc + Envelope.

(** X11: the restore at startup, for any content of the backup store.
    Connecting a fresh queue of capacity [cap] never waits on a full
    queue.  It returns after taking the [min (count, cap)] oldest records
    off the store (none for [cap <= 0]), the decodings of the non-empty
    ones enqueued oldest first and the newer records left in the store;
    or it raises the decoder's exception at the first non-empty record
    that is not JSON, that record taken off the store as well and the
    decodings of the records before it enqueued.  Either way the queue
    keeps its capacity and the store handle is open. *)
Theorem connect_restores_oldest_first (srv : Redis) (cap : Z) :
  let up := connect json_loads (init cap) srv in
  let oldest_first := reverse (lrange backup_key srv) in
  let n := Z.to_nat (Z.min (llen backup_key srv) cap) in
  redis up.1.2 = true ∧
  maxsize (queue up.1.2) = cap ∧
  match up.1.1 with
  | Return _ =>
      reverse (lrange backup_key up.2) = drop n oldest_first ∧
      decoded_from json_loads (take n oldest_first) (items (queue up.1.2))
  | Raise exc =>
      ∃ k s, (k < n)%nat ∧ oldest_first !! k = Some s ∧ s ≠ "" ∧
             json_loads s = inl exc ∧
             reverse (lrange backup_key up.2) = drop (S k) oldest_first ∧
             decoded_from json_loads (take k oldest_first)
               (items (queue up.1.2))
  | Suspend => False
  end.
Proof.
  intros up oldest_first n.
  destruct (connect_restored json_loads srv cap) as (Hr & Hmax & Hres).
  split; [exact Hr|]. split; [exact Hmax|]. exact Hres.
Qed.

(** X12: a restart cycle does not pile up copies.  The queue holds at
    least one envelope at shutdown, every one of them has a non-empty JSON
    text that decodes, and all of them fit the capacity of the restarted
    queue.  Then shutdown followed by startup returns with one envelope
    per resident one, in the same order, each the decoding of the text
    written for it, and with an empty backup list; a second shutdown
    replaces the backup list by the texts of the restored envelopes, as
    many records as the first shutdown wrote. *)
Theorem restart_cycle_is_stable (mq : MessageQueue) (srv : Redis) (cap : Z) :
  redis mq = true →
  items (queue mq) ≠ [] →
  Forall (json_decodes json_loads) (items (queue mq)) →
  Z.of_nat (length (items (queue mq))) ≤ cap →
  let down := disconnect mq srv in
  let up := connect json_loads (init cap) down.2 in
  let down_again := disconnect up.1.2 up.2 in
  up.1.1 = Return () ∧
  Forall2 (λ e e', json_loads (json_dumps e) = inr e')
          (items (queue mq)) (items (queue up.1.2)) ∧
  lrange backup_key up.2 = [] ∧
  lrange backup_key down_again.2
  = reverse (json_dumps <$> items (queue up.1.2)) ∧
  length (lrange backup_key down_again.2) = length (lrange backup_key down.2).
Proof.
  intros Hr Hne Hok Hcap down up down_again.
  destruct (backup_nonempty mq srv Hr Hne) as [_ Hstore].
  set (resident := items (queue mq)) in *.
  unfold disconnect in down. fold down in Hstore.
  destruct (connect_restored json_loads down.2 cap) as (Hr' & _ & Hup).
  fold up in Hr', Hup.
  assert (Hlen : llen backup_key down.2 = Z.of_nat (length resident)).
  { unfold llen. by rewrite Hstore, length_reverse, length_fmap. }
  rewrite Hlen, Hstore, reverse_involutive in Hup.
  replace (Z.to_nat (Z.of_nat (length resident) `min` cap))
    with (length resident) in Hup by lia.
  destruct (restored_from_decodes json_loads _ _ _ _ _ Hok Hup)
    as (Hans & Hnew & Hleft).
  rewrite take_ge in Hnew by lia. rewrite drop_ge in Hleft by lia.
  split; [exact Hans|]. split; [exact Hnew|].
  assert (Hempty : lrange backup_key up.2 = []).
  { rewrite <- (reverse_involutive (lrange backup_key up.2)), Hleft. done. }
  split; [exact Hempty|].
  assert (Hsame : length (items (queue up.1.2)) = length resident).
  { symmetry. exact (Forall2_length _ _ _ Hnew). }
  destruct (backup_nonempty up.1.2 up.2 Hr') as [_ Hstore'].
  { intros Hnil. apply Hne. apply nil_length_inv. fold resident.
    rewrite <- Hsame, Hnil. done. }
  subst down_again. unfold disconnect. split; [exact Hstore'|].
  rewrite Hstore', Hstore, !length_reverse, !length_fmap. exact Hsame.
Qed.

End queue_restart.

(** A record that is not JSON stops the restore: the older record is
    enqueued, the bad record is gone from the store, the newer one is
    still there, and the exception of the decoder reaches the caller of
    [connect]. *)
Example connect_raises_on_bad_record :
  let srv := <[Queue.backup_key := ["{b2}"; "oops"; "{b1}"]]> ∅ in
  let up := Queue.connect Sample.loads_envelope (Queue.init 5) srv in
  up.1.1 = Raise (Exception "Expecting value: line 1 column 1 (char 0)") ∧
  Queue.items (Queue.queue up.1.2) = [Sample.envelope "b1"] ∧
  Queue.lrange Queue.backup_key up.2 = ["{b2}"].
Proof. vm_compute. split; [|split]; reflexivity. Qed.

Lemma restart_cycle_is_stable_witness :
  let carrying bid :=
    Queue.mkEnvelope bid "w1" 1 None [Sample.message 7 10 "hello"] "t" 0 in
  let mq := Queue.mkMessageQueue 10
              (Queue.mkAsyncQueue 10 [carrying "b1"; carrying "b2"]) true in
  let stale := <[Queue.backup_key := ["{b0}"]]> ∅ in
  let down := @Queue.disconnect Sample.dumps_envelope mq stale in
  let up := Queue.connect Sample.loads_envelope (Queue.init 10) down.2 in
  Queue.redis mq = true ∧
  Queue.items (Queue.queue mq) ≠ [] ∧
  Forall (@json_decodes Sample.dumps_envelope Sample.loads_envelope)
         (Queue.items (Queue.queue mq)) ∧
  Z.of_nat (length (Queue.items (Queue.queue mq))) ≤ 10 ∧
  up.1.1 = Return () ∧
  Queue.items (Queue.queue up.1.2)
  = [Sample.envelope "b1"; Sample.envelope "b2"] ∧
  Queue.lrange Queue.backup_key
    (@Queue.disconnect Sample.dumps_envelope up.1.2 up.2).2
  = ["{b2}"; "{b1}"].
Proof.
  intros carrying mq stale down up.
  assert (Hr : Queue.redis mq = true) by reflexivity.
  assert (Hne : Queue.items (Queue.queue mq) ≠ []) by discriminate.
  assert (Hok : Forall (@json_decodes Sample.dumps_envelope
                          Sample.loads_envelope)
                       (Queue.items (Queue.queue mq))).
  { repeat constructor; try discriminate; eexists; reflexivity. }
  assert (Hcap : Z.of_nat (length (Queue.items (Queue.queue mq))) ≤ 10).
  { vm_compute. discriminate. }
  split; [exact Hr|]. split; [exact Hne|]. split; [exact Hok|].
  split; [exact Hcap|].
  pose proof (@restart_cycle_is_stable Sample.dumps_envelope
                Sample.loads_envelope mq stale 10 Hr Hne Hok Hcap) as H.
  split; [exact (proj1 H)|]. split; [reflexivity|].
  exact (proj1 (proj2 (proj2 (proj2 H)))).
Defined.

(* ===================================================================== *)
(** ** Batch aggregator: what a flush may do to the accumulator           *)
(* ===================================================================== *)

Section aggregator_flush.
Import Processor.
Context {Store : Type}.
Variable insert_messages :
  Store → Z → list Writer.Message → (PyExc + Z) * Store.

#[local] Abbreviation flush := (_flush_channel insert_messages).

Lemma lookup_set_batch_eq ch v (b : Batches) :
  lookup_batch ch (set_batch ch v b) = Some v.
Proof.
  induction b as [|[k old] b IH]; simpl.
  - by rewrite decide_True.
  - destruct (decide (k = ch)) as [->|Hk]; simpl.
    + by rewrite decide_True.
    + by rewrite decide_False.
Qed.

Lemma lookup_set_batch_ne ch ch' v (b : Batches) :
  ch' ≠ ch → lookup_batch ch' (set_batch ch v b) = lookup_batch ch' b.
Proof.
  intros Hne. induction b as [|[k old] b IH]; simpl.
  - by rewrite decide_False.
  - destruct (decide (k = ch)) as [->|Hk]; simpl.
    + by rewrite !decide_False.
    + destruct (decide (k = ch')); [done|exact IH].
Qed.

Lemma set_batch_keys ch v (b : Batches) :
  is_Some (lookup_batch ch b) → (set_batch ch v b).*1 = b.*1.
Proof.
  induction b as [|[k old] b IH]; simpl.
  - by intros [? ?].
  - destruct (decide (k = ch)) as [->|Hk]; simpl; [done|].
    intros H. f_equal. by apply IH.
Qed.

(** The two things a flush can do to the accumulator. *)
Lemma flush_channel_cases bp st ch :
  current_batch (flush bp st ch).1 = current_batch bp ∨
  ∃ msgs n,
    lookup_batch ch (current_batch bp) = Some msgs ∧ msgs ≠ [] ∧
    (insert_messages st ch msgs).1 = inr n ∧
    current_batch (flush bp st ch).1 = set_batch ch [] (current_batch bp).
Proof.
  unfold _flush_channel.
  destruct (lookup_batch ch (current_batch bp)) as [[|m msgs]|] eqn:Hl;
    [by left|..|by left].
  destruct (insert_messages st ch (m :: msgs)) as [[e|n] st'] eqn:Hw.
  - by left.
  - right. exists (m :: msgs), n. by rewrite Hw.
Qed.

(** X13: a flush removes pending data only after the writer has accepted
    exactly that data.  Whatever the writer does, flushing a partition
    either leaves the whole accumulator as it is, or the writer returned a
    count for the partition's complete pending list and the partition is
    now empty; the pending lists of all other partitions and the set and
    order of the partitions never change. *)
Theorem flush_only_clears_written (bp : BatchProcessor) (st : Store)
    (ch : Z) :
  let after := (flush bp st ch).1 in
  (current_batch after = current_batch bp ∨
   ∃ msgs n,
     lookup_batch ch (current_batch bp) = Some msgs ∧ msgs ≠ [] ∧
     insert_messages st ch msgs = (inr n, (flush bp st ch).2) ∧
     lookup_batch ch (current_batch after) = Some []) ∧
  (∀ ch', ch' ≠ ch →
     lookup_batch ch' (current_batch after)
     = lookup_batch ch' (current_batch bp)) ∧
  (current_batch after).*1 = (current_batch bp).*1.
Proof.
  intros after. subst after. unfold _flush_channel.
  destruct (lookup_batch ch (current_batch bp)) as [[|m msgs]|] eqn:Hl;
    [by (split; [left|]) | | by (split; [left|])].
  destruct (insert_messages st ch (m :: msgs)) as [[e|n] st'] eqn:Hw; simpl.
  - by (split; [left|]).
  - split; [|split].
    + right. exists (m :: msgs), n.
      split; [done|]. split; [done|]. split; [done|].
      apply lookup_set_batch_eq.
    + intros ch' Hne. by apply lookup_set_batch_ne.
    + apply set_batch_keys. by rewrite Hl.
Qed.

Lemma flush_channel_kept_or_cleared bp st ch :
  kept_or_cleared (current_batch bp) (current_batch (flush bp st ch).1).
Proof.
  unfold _flush_channel.
  destruct (lookup_batch ch (current_batch bp)) as [[|m msgs]|] eqn:Hl;
    [by (split; [|left]) | | by (split; [|left])].
  destruct (insert_messages st ch (m :: msgs)) as [[e|n] st']; simpl.
  - by (split; [|left]).
  - split.
    + apply set_batch_keys. by rewrite Hl.
    + intros ch'. destruct (decide (ch' = ch)) as [->|Hne].
      * right. rewrite Hl. split; [done|]. apply lookup_set_batch_eq.
      * left. by apply lookup_set_batch_ne.
Qed.

Lemma kept_or_cleared_trans b1 b2 b3 :
  kept_or_cleared b1 b2 → kept_or_cleared b2 b3 → kept_or_cleared b1 b3.
Proof.
  intros [Hk1 H1] [Hk2 H2]. split; [congruence|]. intros ch.
  destruct (H1 ch) as [E1|[S1 E1]], (H2 ch) as [E2|[S2 E2]].
  - left. congruence.
  - right. split; [by rewrite <- E1|done].
  - right. split; [done|congruence].
  - right. done.
Qed.

Lemma flush_keys_kept_or_cleared bp st keys :
  kept_or_cleared (current_batch bp)
    (current_batch (flush_keys insert_messages bp st keys).1).
Proof.
  unfold flush_keys. revert bp st.
  induction keys as [|ch keys IH]; intros bp st; simpl.
  - split; [done|]. by left.
  - eapply kept_or_cleared_trans; [apply (flush_channel_kept_or_cleared bp st ch)|].
    destruct (flush bp st ch) as [bp1 st1]. apply IH.
Qed.

End aggregator_flush.

(* ===================================================================== *)
(** ** Batch aggregator: sweeps, triggers and the consumer loop           *)
(* ===================================================================== *)

Section aggregator_sweeps.
Import Processor.
Context {Store : Type}.
Variable insert_messages :
  Store → Z → list Writer.Message → (PyExc + Z) * Store.

#[local] Abbreviation flush := (_flush_channel insert_messages).

#[local] Abbreviation always_fails := (writer_always_fails insert_messages).
#[local] Abbreviation always_succeeds :=
  (writer_always_succeeds insert_messages).

Lemma lookup_batch_Some_key ch (b : Batches) msgs :
  lookup_batch ch b = Some msgs → ch ∈ b.*1.
Proof.
  induction b as [|[k v] b IH]; simpl; [done|].
  destruct (decide (k = ch)) as [->|Hk].
  - intros _. apply list_elem_of_here.
  - intros H. apply list_elem_of_further. by apply IH.
Qed.

Lemma flush_channel_failing bp st ch :
  always_fails → current_batch (flush bp st ch).1 = current_batch bp.
Proof.
  intros Hfail.
  destruct (flush_channel_cases insert_messages bp st ch)
    as [H|(msgs & n & _ & _ & Hw & _)]; [done|].
  destruct (Hfail st ch msgs) as (e & s' & He). rewrite He in Hw. done.
Qed.

Lemma flush_keys_failing bp st keys :
  always_fails →
  current_batch (flush_keys insert_messages bp st keys).1 = current_batch bp.
Proof.
  intros Hfail. unfold flush_keys. revert bp st.
  induction keys as [|ch keys IH]; intros bp st; simpl; [done|].
  pose proof (flush_channel_failing bp st ch Hfail) as H1.
  destruct (flush bp st ch) as [bp1 st1]. simpl in *.
  by rewrite IH.
Qed.

Lemma flush_channel_succeeding bp st ch msgs :
  always_succeeds →
  lookup_batch ch (current_batch (flush bp st ch).1) = Some msgs →
  msgs = [].
Proof.
  intros Hok. unfold _flush_channel.
  destruct (lookup_batch ch (current_batch bp)) as [[|m l]|] eqn:Hl.
  - simpl. rewrite Hl. by intros [= <-].
  - destruct (Hok st ch (m :: l)) as (n & s' & ->). simpl.
    rewrite lookup_set_batch_eq. by intros [= <-].
  - simpl. by rewrite Hl.
Qed.

Lemma flush_keys_succeeding bp st keys ch msgs :
  always_succeeds → ch ∈ keys →
  lookup_batch ch (current_batch (flush_keys insert_messages bp st keys).1)
  = Some msgs →
  msgs = [].
Proof.
  intros Hok. unfold flush_keys. revert bp st.
  induction keys as [|k keys IH]; intros bp st Hin; [by apply elem_of_nil in Hin|].
  simpl. pose proof (flush_channel_succeeding bp st k) as Hk.
  destruct (flush bp st k) as [bp1 st1] eqn:Hf. simpl in Hk.
  destruct (decide (ch = k)) as [->|Hne].
  - intros Hl.
    destruct (flush_keys_kept_or_cleared insert_messages bp1 st1 keys)
      as [_ Hkc].
    unfold flush_keys in Hkc.
    destruct (Hkc k) as [E|[_ E]]; rewrite E in Hl.
    + by apply (Hk msgs Hok).
    + by injection Hl as <-.
  - apply elem_of_cons in Hin as [?|Hin]; [done|]. by apply IH.
Qed.

Lemma flush_channel_running bp st ch :
  running (flush bp st ch).1 = running bp.
Proof.
  unfold _flush_channel.
  destruct (lookup_batch ch (current_batch bp)) as [[|m l]|]; try done.
  by destruct (insert_messages st ch (m :: l)) as [[e|n] s'].
Qed.

Lemma flush_keys_running bp st keys :
  running (flush_keys insert_messages bp st keys).1 = running bp.
Proof.
  unfold flush_keys. revert bp st.
  induction keys as [|k keys IH]; intros bp st; simpl; [done|].
  pose proof (flush_channel_running bp st k) as H1.
  destruct (flush bp st k) as [bp1 st1]. simpl in *. by rewrite IH.
Qed.

(** X14: a sweep over all partitions, for any writer.  It keeps the
    partitions and their order, and leaves each pending list either
    intact or empty (nothing is truncated, reordered or moved between
    partitions); when there is at least one partition it resets the
    flush clock to the current time, also when every write failed; on an
    empty accumulator it does nothing. *)
Theorem flush_all_keeps_or_clears (bp : BatchProcessor) (st : Store)
    (utcnow : Z) :
  let after := _flush_all insert_messages bp st utcnow in
  kept_or_cleared (current_batch bp) (current_batch after.1) ∧
  match current_batch bp with
  | [] => after = (bp, st)
  | _ => last_flush after.1 = utcnow
  end.
Proof.
  intros after. subst after. unfold _flush_all.
  destruct (current_batch bp) as [|kv b] eqn:Hcb.
  - split; [|done]. simpl. rewrite Hcb. split; [done|]. by left.
  - match goal with
    | |- context [flush_keys _ ?bp0 st ?ks] =>
        pose proof (flush_keys_kept_or_cleared insert_messages bp0 st ks) as H;
        destruct (flush_keys insert_messages bp0 st ks) as [bp1 st1]
    end.
    simpl in *. split; [exact H|done].
Qed.

(** X15: while the writer refuses every batch, nothing leaves the
    accumulator: a time-triggered check, a sweep and the flush at [stop]
    all leave every partition's pending list exactly as it was. *)
Theorem failing_writer_drops_nothing (bp : BatchProcessor) (st : Store)
    (utcnow : Z) :
  always_fails →
  current_batch (_flush_all insert_messages bp st utcnow).1
    = current_batch bp ∧
  current_batch (_check_flush insert_messages bp st utcnow).1
    = current_batch bp ∧
  current_batch (stop insert_messages bp st utcnow).1 = current_batch bp.
Proof.
  intros Hfail.
  assert (Hall : ∀ bp0, current_batch
                   (_flush_all insert_messages bp0 st utcnow).1
                 = current_batch bp0).
  { intros bp0. unfold _flush_all.
    destruct (current_batch bp0) as [|kv b] eqn:Hcb; [done|].
    match goal with
    | |- context [flush_keys _ ?bp1 st ?ks] =>
        pose proof (flush_keys_failing bp1 st ks Hfail) as H;
        destruct (flush_keys insert_messages bp1 st ks) as [bp2 st2]
    end.
    simpl in *. by rewrite H. }
  split; [apply Hall|]. split.
  - unfold _check_flush. destruct (_ && _); [apply Hall|done].
  - unfold stop.
    match goal with
    | |- context [_flush_all _ ?bp0 st utcnow] =>
        pose proof (Hall bp0) as H;
        destruct (_flush_all insert_messages bp0 st utcnow) as [bp1 st1]
    end.
    simpl in *. exact H.
Qed.

(** X16: the time trigger.  When the flush timeout has elapsed and the
    writer accepts every batch, the check empties every partition, however
    few items each holds, and restarts the flush clock; the flush at
    [stop] empties every partition as well. *)
Theorem time_trigger_flushes_everything (bp : BatchProcessor) (st : Store)
    (utcnow : Z) :
  always_succeeds →
  batch_timeout bp ≤ utcnow - last_flush bp →
  current_batch bp ≠ [] →
  let checked := (_check_flush insert_messages bp st utcnow).1 in
  let stopped := (stop insert_messages bp st utcnow).1 in
  (∀ ch msgs, lookup_batch ch (current_batch checked) = Some msgs →
              msgs = []) ∧
  last_flush checked = utcnow ∧
  (∀ ch msgs, lookup_batch ch (current_batch stopped) = Some msgs →
              msgs = []) ∧
  running stopped = false.
Proof.
  intros Hok Hdue Hne checked stopped.
  assert (Hall : ∀ bp0, current_batch bp0 ≠ [] →
            let r := (_flush_all insert_messages bp0 st utcnow).1 in
            (∀ ch msgs, lookup_batch ch (current_batch r) = Some msgs →
                        msgs = []) ∧
            last_flush r = utcnow ∧ running r = running bp0).
  { intros bp0 Hne0 r. subst r. unfold _flush_all.
    destruct (current_batch bp0) as [|kv b] eqn:Hcb; [done|].
    match goal with
    | |- context [flush_keys _ ?bp1 st ?ks] =>
        pose proof (flush_keys_succeeding bp1 st ks) as Hs;
        pose proof (flush_keys_kept_or_cleared insert_messages bp1 st ks)
          as [Hkeys _];
        assert (Hrun : running (flush_keys insert_messages bp1 st ks).1
                       = running bp1);
        [|destruct (flush_keys insert_messages bp1 st ks) as [bp2 st2]]
    end.
    { apply flush_keys_running. }
    simpl in *. split; [|done].
    intros ch msgs Hl. apply (Hs ch msgs Hok); [|done].
    rewrite <- Hkeys. by eapply lookup_batch_Some_key. }
  subst checked stopped. split; [|split; [|split]].
  - unfold _check_flush.
    apply Z.leb_le in Hdue. rewrite Hdue.
    destruct (current_batch bp) eqn:Hcb; [done|]. simpl.
    apply Hall. by rewrite Hcb.
  - unfold _check_flush.
    apply Z.leb_le in Hdue. rewrite Hdue.
    destruct (current_batch bp) eqn:Hcb; [done|]. simpl.
    apply Hall. by rewrite Hcb.
  - unfold stop.
    match goal with
    | |- context [_flush_all _ ?bp0 st utcnow] =>
        destruct (Hall bp0 Hne) as (H1 & _ & _);
        destruct (_flush_all insert_messages bp0 st utcnow) as [bp1 st1]
    end.
    simpl in *. exact H1.
  - unfold stop.
    match goal with
    | |- context [_flush_all _ ?bp0 st utcnow] =>
        destruct (Hall bp0 Hne) as (_ & _ & H3);
        destruct (_flush_all insert_messages bp0 st utcnow) as [bp1 st1]
    end.
    simpl in *. exact H3.
Qed.

End aggregator_sweeps.

Lemma sample_db_writer_always_succeeds :
  writer_always_succeeds Sample.db_writer.
Proof.
  intros db ch msgs. unfold Sample.db_writer, Processor.db_writer.
  destruct (Writer.insert_messages db 50 ch msgs) as [n db']. by exists n, db'.
Qed.

Lemma sample_unavailable_writer_always_fails :
  writer_always_fails Sample.unavailable_writer.
Proof. intros s ch msgs. by eexists _, _. Qed.

Lemma failing_writer_drops_nothing_witness :
  let m := Sample.message 7 10 "hello" in
  let bp := Processor.mkBatchProcessor 100 5 true [(1, [m])] 0 [] in
  writer_always_fails Sample.unavailable_writer ∧
  Processor.current_batch
    (Processor._flush_all Sample.unavailable_writer bp 0%nat 60).1
  = [(1, [m])].
Proof.
  intros m bp. split; [exact sample_unavailable_writer_always_fails|].
  exact (proj1 (failing_writer_drops_nothing Sample.unavailable_writer
                  bp 0%nat 60 sample_unavailable_writer_always_fails)).
Defined.

Lemma time_trigger_flushes_everything_witness :
  let m := Sample.message 7 10 "hello" in
  let bp := Processor.mkBatchProcessor 1000 1 true [(1, [m])] 0 [] in
  let db := Writer.mkDB [] [] ∅ ∅ in
  writer_always_succeeds Sample.db_writer ∧
  Processor.batch_timeout bp ≤ 2 - Processor.last_flush bp ∧
  Processor.current_batch bp ≠ [] ∧
  Processor.last_flush
    (Processor._check_flush Sample.db_writer bp db 2).1 = 2.
Proof.
  intros m bp db.
  assert (Hdue : Processor.batch_timeout bp ≤ 2 - Processor.last_flush bp).
  { vm_compute. discriminate. }
  assert (Hne : Processor.current_batch bp ≠ []) by discriminate.
  split; [exact sample_db_writer_always_succeeds|].
  split; [exact Hdue|]. split; [exact Hne|].
  exact (proj1 (proj2 (time_trigger_flushes_everything Sample.db_writer
                         bp db 2 sample_db_writer_always_succeeds
                         Hdue Hne))).
Defined.

(* ===================================================================== *)
(** ** Batch aggregator: merging an envelope, the consumer loop           *)
(* ===================================================================== *)

Section aggregator_loop.
Import Processor.
Context {Store : Type}.
Variable insert_messages :
  Store → Z → list Writer.Message → (PyExc + Z) * Store.

#[local] Abbreviation flush := (_flush_channel insert_messages).
#[local] Abbreviation always_fails := (writer_always_fails insert_messages).

Lemma flush_channel_other bp st ch ch' :
  ch' ≠ ch →
  lookup_batch ch' (current_batch (flush bp st ch).1)
  = lookup_batch ch' (current_batch bp).
Proof.
  intros Hne. unfold _flush_channel.
  destruct (lookup_batch ch (current_batch bp)) as [[|m msgs]|]; try done.
  destruct (insert_messages st ch (m :: msgs)) as [[e|n] st']; simpl; [done|].
  by apply lookup_set_batch_ne.
Qed.

(** X17: merging an envelope.  Its items are appended, in order, to the
    pending list of its own partition and no other partition changes.
    Below the size threshold the writer is not called at all.  The
    extended list leaves the accumulator only if the threshold is reached
    and the writer returns a count for exactly that list. *)
Theorem process_batch_appends (bp : BatchProcessor) (st : Store)
    (batch_data : Queue.Envelope) :
  let ch := Queue.channel_id batch_data in
  let all := default [] (lookup_batch ch (current_batch bp))
             ++ Queue.messages batch_data in
  let after := _process_batch insert_messages bp st batch_data in
  (∀ ch', ch' ≠ ch →
     lookup_batch ch' (current_batch after.1)
     = lookup_batch ch' (current_batch bp)) ∧
  (lookup_batch ch (current_batch after.1) = Some all ∨
   (batch_size bp ≤ Z.of_nat (length all) ∧
    (∃ n, insert_messages st ch all = (inr n, after.2)) ∧
    lookup_batch ch (current_batch after.1) = Some [])) ∧
  (Z.of_nat (length all) < batch_size bp → after.2 = st).
Proof.
  intros ch all after. subst after. unfold _process_batch.
  fold ch. fold all.
  set (bp1 := with_batch bp (set_batch ch all (current_batch bp)) (log bp)).
  destruct (Z.leb_spec (batch_size bp) (Z.of_nat (length all))) as [Hge|Hlt].
  - split; [|split; [|lia]].
    + intros ch' Hne. rewrite flush_channel_other by done.
      by apply lookup_set_batch_ne.
    + unfold _flush_channel.
      assert (Hl : lookup_batch ch (current_batch bp1) = Some all)
        by apply lookup_set_batch_eq.
      rewrite Hl. destruct all as [|m l] eqn:Hall; [by left|].
      destruct (insert_messages st ch (m :: l)) as [[e|n] st'] eqn:Hw; simpl.
      * by left.
      * right. split; [done|]. split; [by exists n|].
        apply lookup_set_batch_eq.
  - split; [|split; [|done]].
    + intros ch' Hne. by apply lookup_set_batch_ne.
    + left. apply lookup_set_batch_eq.
Qed.

Lemma flush_all_failing bp st utcnow :
  always_fails →
  current_batch (_flush_all insert_messages bp st utcnow).1
  = current_batch bp.
Proof.
  intros Hfail. unfold _flush_all.
  destruct (current_batch bp) as [|kv b] eqn:Hcb; [done|].
  match goal with
  | |- context [flush_keys _ ?bp1 st ?ks] =>
      pose proof (flush_keys_failing insert_messages bp1 st ks Hfail) as H;
      destruct (flush_keys insert_messages bp1 st ks) as [bp2 st2]
  end.
  simpl in *. by rewrite H.
Qed.

Lemma check_flush_failing bp st utcnow :
  always_fails →
  current_batch (_check_flush insert_messages bp st utcnow).1
  = current_batch bp.
Proof.
  intros Hfail. unfold _check_flush.
  destruct (_ && _); [by apply flush_all_failing|done].
Qed.

Lemma process_batch_cases bp st e :
  always_fails →
  lookup_batch (Queue.channel_id e)
    (current_batch (_process_batch insert_messages bp st e).1)
  = Some (default [] (lookup_batch (Queue.channel_id e) (current_batch bp))
          ++ Queue.messages e) ∧
  ∀ ch', ch' ≠ Queue.channel_id e →
    lookup_batch ch' (current_batch (_process_batch insert_messages bp st e).1)
    = lookup_batch ch' (current_batch bp).
Proof.
  intros Hfail. unfold _process_batch.
  set (ch := Queue.channel_id e).
  set (all := default [] (lookup_batch ch (current_batch bp))
              ++ Queue.messages e).
  destruct (batch_size bp <=? Z.of_nat (length all)).
  - split.
    + rewrite (flush_channel_failing insert_messages _ _ _ Hfail). simpl.
      apply lookup_set_batch_eq.
    + intros ch' Hne.
      rewrite (flush_channel_failing insert_messages _ _ _ Hfail). simpl.
      by apply lookup_set_batch_ne.
  - simpl. split; [apply lookup_set_batch_eq|].
    intros ch' Hne. by apply lookup_set_batch_ne.
Qed.

(** X18: one turn of the consumer loop while the writer refuses every
    batch.  The oldest envelope leaves the queue and its items are now
    the tail of the pending list of its partition; the rest of the queue
    and all other partitions are as before.  On an empty queue the
    accumulator is left as it is. *)
Theorem start_iteration_merges_head (bp : BatchProcessor) (st : Store)
    (mq : Queue.MessageQueue) (utcnow : Z) :
  always_fails →
  let after := start_iteration insert_messages bp st mq utcnow in
  match Queue.items (Queue.queue mq) with
  | [] => current_batch after.1.1 = current_batch bp ∧ after.2 = mq
  | e :: rest =>
      Queue.items (Queue.queue after.2) = rest ∧
      lookup_batch (Queue.channel_id e) (current_batch after.1.1)
      = Some (default [] (lookup_batch (Queue.channel_id e)
                            (current_batch bp))
              ++ Queue.messages e) ∧
      ∀ ch', ch' ≠ Queue.channel_id e →
        lookup_batch ch' (current_batch after.1.1)
        = lookup_batch ch' (current_batch bp)
  end.
Proof.
  intros Hfail after. subst after.
  unfold start_iteration, Queue.get_batch, Queue.wait_for_get.
  destruct (Queue.items (Queue.queue mq)) as [|e rest] eqn:Hits.
  - pose proof (check_flush_failing bp st utcnow Hfail) as Hc.
    destruct (_check_flush insert_messages bp st utcnow) as [bp2 st2].
    simpl in *. done.
  - destruct (process_batch_cases bp st e Hfail) as [Hsame Hother].
    destruct (_process_batch insert_messages bp st e) as [bp1 st1].
    pose proof (check_flush_failing bp1 st1 utcnow Hfail) as Hc.
    destruct (_check_flush insert_messages bp1 st1 utcnow) as [bp2 st2].
    simpl in *. rewrite Hc. done.
Qed.

End aggregator_loop.

Lemma start_iteration_merges_head_witness :
  let m := Sample.message 7 10 "hello" in
  let bp := Processor.mkBatchProcessor 100 5 true [] 0 [] in
  let e := Queue.mkEnvelope "b1" "w1" 1 None [m] "t" 0 in
  let mq := Queue.mkMessageQueue 10 (Queue.mkAsyncQueue 10 [e]) true in
  writer_always_fails Sample.unavailable_writer ∧
  Queue.items (Queue.queue
    (Processor.start_iteration Sample.unavailable_writer bp 0%nat mq 1).2)
  = [] ∧
  Processor.lookup_batch 1
    (Processor.current_batch
       (Processor.start_iteration Sample.unavailable_writer
          bp 0%nat mq 1).1.1)
  = Some [m].
Proof.
  intros m bp e mq. split; [exact sample_unavailable_writer_always_fails|].
  pose proof (start_iteration_merges_head Sample.unavailable_writer
                bp 0%nat mq 1 sample_unavailable_writer_always_fails) as H.
  simpl in H. destruct H as (H1 & H2 & _). split; [exact H1|exact H2].
Defined.

(* ===================================================================== *)
(** ** Aggregator and database writer together                            *)
(* ===================================================================== *)

Section aggregator_with_database.
Import Processor.
Context {dumps_reactions : JsonDumps (list (string * Z))}.
Context {dumps_dict : JsonDumps (list (string * Json))}.

(** X19: a flush through [DatabaseWriter.insert_messages] that goes
    through.  The partition is emptied, every item that was pending is
    stored under its [(channel, id)] key, and the messages table gains
    exactly the keys of the pending items. *)
Theorem flush_stores_pending (bp : BatchProcessor) (db : Writer.DB)
    (now ch : Z) (msgs : list Writer.Message) :
  lookup_batch ch (current_batch bp) = Some msgs →
  msgs ≠ [] →
  let after := _flush_channel (db_writer now) bp db ch in
  lookup_batch ch (current_batch after.1) = Some [] ∧
  Forall (λ m, is_Some (Writer.messages after.2
                          !! (ch, Writer.m_message_id m))) msgs ∧
  dom (Writer.messages after.2)
  = dom (Writer.messages db) ∪
    list_to_set ((λ m, (ch, Writer.m_message_id m)) <$> msgs).
Proof.
  intros Hl Hne after. subst after. unfold _flush_channel. rewrite Hl.
  destruct msgs as [|m l]; [done|]. clear Hne.
  unfold db_writer.
  pose proof (insert_messages_table db now ch (m :: l)) as Htbl.
  destruct (Writer.insert_messages db now ch (m :: l)) as [n db'].
  cbn [fst snd current_batch with_batch] in *.
  assert (Hdom : dom (Writer.messages db')
                 = dom (Writer.messages db) ∪
                   list_to_set ((λ x, (ch, Writer.m_message_id x))
                                  <$> (m :: l))).
  { rewrite Htbl, executemany_dom. by rewrite <- list_fmap_compose. }
  split; [apply lookup_set_batch_eq|]. split; [|exact Hdom].
  apply Forall_forall. intros x Hx. apply elem_of_dom. rewrite Hdom.
  apply elem_of_union_r, elem_of_list_to_set, list_elem_of_fmap.
  by exists x.
Qed.

End aggregator_with_database.

Lemma flush_stores_pending_witness :
  let m := Sample.message 7 10 "hello" in
  let bp := Processor.mkBatchProcessor 100 5 true [(1, [m])] 0 [] in
  let db := Writer.mkDB [] [] ∅ ∅ in
  Processor.lookup_batch 1 (Processor.current_batch bp) = Some [m] ∧
  [m] ≠ [] ∧
  Processor.lookup_batch 1
    (Processor.current_batch
       (Processor._flush_channel
          (@Processor.db_writer Sample.dumps_reactions Sample.dumps_dict 50)
          bp db 1).1)
  = Some [].
Proof.
  intros m bp db.
  assert (Hl : Processor.lookup_batch 1 (Processor.current_batch bp)
               = Some [m]) by reflexivity.
  assert (Hne : [m] ≠ []) by discriminate.
  split; [exact Hl|]. split; [exact Hne|].
  exact (proj1 (@flush_stores_pending Sample.dumps_reactions
                  Sample.dumps_dict bp db 50 1 [m] Hl Hne)).
Defined.

(* ===================================================================== *)
(** ** Transport boundary: accepted, waiting and refused submissions      *)
(* ===================================================================== *)

Section transport_more.
Import Routes.
Context {dumps_envelope : JsonDumps Queue.Envelope}.

(** X20: a submission of 1 to 1000 messages to a full queue is neither
    accepted nor refused: the request stays parked on the queue, and the
    queue and the backup store are as they were. *)
Theorem submit_messages_waits_on_full_queue (batch : MessageBatch)
    (worker_id : string) (mq : Queue.MessageQueue) (srv : Queue.Redis)
    (uuid4 utcnow : string) :
  messages batch ≠ [] →
  (length (messages batch) ≤ 1000)%nat →
  Queue.full (Queue.queue mq) = true →
  submit_messages batch worker_id mq srv uuid4 utcnow = (Suspend, mq, srv).
Proof.
  intros Hne Hlen Hfull. unfold submit_messages.
  destruct (messages batch) as [|m ms] eqn:Hm; [done|].
  apply Nat.ltb_ge in Hlen. rewrite Hlen.
  unfold Queue.add_batch, Queue.put. by rewrite Hfull.
Qed.

(** X23: the jobs endpoint.  A negative limit is answered with status
    500, the refusal of the store re-raised by the handler.  Any other
    limit is answered with an empty list when the limit is zero or no
    pending job has an active channel, and with status 500 as soon as one
    row is selected: the rows carry [job_uuid] where [JobResponse] requires
    [job_id], so the answer of the handler does not validate. *)
Theorem get_jobs_answers (db : Writer.DB) (worker_id : string) (limit : Z) :
  let answer := get_jobs db worker_id limit in
  if limit <? 0 then
    (∃ detail, answer = Raise (HTTPException 500 detail)) ∧
    status_code answer = Some 500
  else if limit =? 0 then answer = Return []
  else
    match eligible_rows (Writer.jobs db) (Writer.channels db) with
    | [] => answer = Return []
    | _ :: _ =>
        (∃ r rows,
           Writer.get_worker_jobs db worker_id limit = Return (r :: rows)) ∧
        answer = Raise (Exception "ResponseValidationError") ∧
        status_code answer = Some 500
    end.
Proof.
  intros answer. subst answer. unfold get_jobs, Writer.get_worker_jobs.
  rewrite <- pending_active_eligible.
  destruct (Z.ltb_spec limit 0) as [Hneg|Hpos]; cbn [except_500].
  { split; [by eexists|done]. }
  destruct (Z.eqb_spec limit 0) as [->|Hnz]; [reflexivity|].
  set (all := Writer.pending_active (Writer.jobs db) (Writer.channels db)).
  pose proof (merge_sort_Permutation Writer.job_order all) as Hperm.
  destruct all as [|r0 all'] eqn:Hall.
  { apply Permutation_nil_r in Hperm. by rewrite Hperm, take_nil. }
  destruct (merge_sort Writer.job_order (r0 :: all')) as [|r rows].
  { by apply Permutation_nil_cons in Hperm. }
  destruct (Z.to_nat limit) as [|k] eqn:Hk; [lia|].
  cbn [take]. rewrite fmap_cons.
  split; [by eexists _, _|]. done.
Qed.

End transport_more.

Lemma submit_messages_waits_on_full_queue_witness :
  let batch := Routes.mkMessageBatch 1 None [Sample.message 7 10 "hello"] in
  let mq := Queue.mkMessageQueue 1
              (Queue.mkAsyncQueue 1 [Sample.envelope "b0"]) true in
  Routes.messages batch ≠ [] ∧
  (length (Routes.messages batch) ≤ 1000)%nat ∧
  Queue.full (Queue.queue mq) = true ∧
  @Routes.submit_messages Sample.dumps_envelope batch "w1" mq ∅ "b1" "t"
  = (Suspend, mq, ∅).
Proof.
  intros batch mq.
  assert (Hne : Routes.messages batch ≠ []) by discriminate.
  assert (Hlen : (length (Routes.messages batch) ≤ 1000)%nat).
  { apply Nat.leb_le. vm_compute. reflexivity. }
  assert (Hfull : Queue.full (Queue.queue mq) = true) by reflexivity.
  split; [exact Hne|]. split; [exact Hlen|]. split; [exact Hfull|].
  exact (@submit_messages_waits_on_full_queue Sample.dumps_envelope
           batch "w1" mq ∅ "b1" "t" Hne Hlen Hfull).
Defined.

Lemma submit_messages_accepted_witness :
  let batch := Routes.mkMessageBatch 1 None [Sample.message 7 10 "hello"] in
  let mq := Queue.init 5 in
  Routes.messages batch ≠ [] ∧
  (length (Routes.messages batch) ≤ 1000)%nat ∧
  Queue.full (Queue.queue mq) = false ∧
  (@Routes.submit_messages Sample.dumps_envelope batch "w1" mq ∅
     "b1" "t").1.1
  = Return (Routes.mkMessageResponse true "b1" 1
              "Messages queued for processing").
Proof.
  intros batch mq.
  assert (Hne : Routes.messages batch ≠ []) by discriminate.
  assert (Hlen : (length (Routes.messages batch) ≤ 1000)%nat).
  { apply Nat.leb_le. vm_compute. reflexivity. }
  assert (Hfull : Queue.full (Queue.queue mq) = false) by reflexivity.
  split; [exact Hne|]. split; [exact Hlen|]. split; [exact Hfull|].
  exact (proj1 (@submit_messages_accepted Sample.dumps_envelope
                  batch "w1" mq ∅ "b1" "t" Hne Hlen Hfull)).
Defined.

Lemma submit_messages_oversized_batch_witness :
  let batch := Routes.mkMessageBatch 1 None
                 (replicate 1001 (Sample.message 7 10 "hello")) in
  (1000 < length (Routes.messages batch))%nat ∧
  (@Routes.submit_messages Sample.dumps_envelope batch "w1"
     (Queue.init 5) ∅ "b1" "t").1.2
  = Queue.init 5.
Proof.
  intros batch.
  assert (Hlen : (1000 < length (Routes.messages batch))%nat).
  { apply Nat.ltb_lt. vm_compute. reflexivity. }
  split; [exact Hlen|].
  exact (f_equal (λ r, r.1.2)
           (@submit_messages_oversized_batch Sample.dumps_envelope
              batch "w1" (Queue.init 5) ∅ "b1" "t" Hlen)).
Defined.

(* ===================================================================== *)
(** ** Worker registry: heartbeats and statistics                         *)
(* ===================================================================== *)

Section registry.
Import Writer Registry.
Context {dumps_dict : JsonDumps (list (string * Json))}.
Variable default_counters : Worker.
Variable default_started_at : Z → option Z.
Variable jsonb_set_current_job : string → string → string.

#[local] Abbreviation heartbeat :=
  (update_worker_heartbeat default_counters default_started_at
     jsonb_set_current_job).

(** X24: what a heartbeat writes.  Afterwards the worker has a record
    with the reported status and the current time as last heartbeat.  Its
    stored metadata is replaced by the metadata sent with the heartbeat,
    with the current job set on it when one is reported; nothing of what
    was stored before is kept, and a heartbeat that sends neither leaves no
    metadata.  The counters and the start time of a record that existed
    are kept (a new record gets the column defaults) and so are the
    statistics read back for it; every other worker's record and the
    jobs, channels and messages are as before. *)
Theorem heartbeat_replaces_metadata (s : Store) (now : Z)
    (worker_id status : string) (current_job : option string)
    (meta : option (list (string * Json))) :
  let s' := heartbeat s now worker_id status current_job meta in
  let sent := if truthy_dict meta then json_dumps <$> meta else None in
  (∃ w, workers (db s') !! worker_id = Some w ∧
        worker_status w = status ∧ last_heartbeat w = now ∧
        let old := default default_counters (workers (db s) !! worker_id) in
        jobs_completed w = jobs_completed old ∧
        jobs_failed w = jobs_failed old ∧
        messages_processed w = messages_processed old) ∧
  (∃ m, worker_meta s' !! worker_id = Some m ∧
        metadata m
        = (if truthy_str current_job
           then Some (jsonb_set_current_job (default "{}" sent)
                        (default "" current_job))
           else sent) ∧
        worker_started_at m
        = match workers (db s) !! worker_id with
          | Some _ => started_at_of s worker_id
          | None => default_started_at now
          end) ∧
  (∀ s0,
     metadata <$> worker_meta
                    (heartbeat s0 now worker_id status current_job meta)
                  !! worker_id
     = metadata <$> worker_meta s' !! worker_id) ∧
  (∀ other, other ≠ worker_id →
     workers (db s') !! other = workers (db s) !! other ∧
     worker_meta s' !! other = worker_meta s !! other) ∧
  (jobs (db s') = jobs (db s) ∧ channels (db s') = channels (db s) ∧
   messages (db s') = messages (db s)) ∧
  (∀ t other,
     is_Some (workers (db s) !! other) →
     get_worker_stats s' t other = get_worker_stats s t other).
Proof.
  intros s' sent. subst s' sent. unfold update_worker_heartbeat.
  split; [|split; [|split; [|split; [|split]]]].
  - simpl. rewrite lookup_insert_eq. eexists. split; [reflexivity|].
    by destruct (workers (db s) !! worker_id).
  - cbn [worker_meta]. rewrite lookup_insert_eq. eexists.
    split; [reflexivity|]. cbn [metadata worker_started_at].
    split; [|done]. unfold dumps_if.
    destruct current_job as [job|]; [|done]. cbn [default].
    by destruct (truthy_str (Some job)).
  - intros s0. cbn [worker_meta]. by rewrite !lookup_insert_eq.
  - intros other Hne. simpl. by rewrite !lookup_insert_ne.
  - done.
  - intros t other [w Hw]. unfold get_worker_stats, started_at_of. simpl.
    destruct (decide (other = worker_id)) as [->|Hne].
    + rewrite !lookup_insert_eq, Hw. simpl. done.
    + by rewrite !lookup_insert_ne, Hw.
Qed.

End registry.

Section registry_reports.
Import Writer Registry.

(** X25: the statistics follow the job reports of the caller.  After a
    complete-job request by a worker with a record, its statistics show
    one more completed job and [items_collected] more processed messages;
    after a fail-job request, one more failed job; the uptime is not
    affected.  A worker without a record reads zeros before and after:
    reporting a job does not create a record.  The statistics of every
    other worker are unchanged. *)
Theorem stats_follow_job_reports (s : Store) (now t : Z)
    (job_id caller err : string) (n : Z) :
  caller ≠ "" →
  let completed :=
    with_db s (Routes.complete_job (db s) now job_id n caller).2 in
  let failed :=
    with_db s (Routes.fail_job (db s) now job_id err caller).2 in
  let before := get_worker_stats s t caller in
  match workers (db s) !! caller with
  | Some _ =>
      get_worker_stats completed t caller
      = mkWorkerStats (stat_jobs_completed before + 1)
                      (stat_jobs_failed before)
                      (stat_messages_processed before + n)
                      (uptime_seconds before) ∧
      get_worker_stats failed t caller
      = mkWorkerStats (stat_jobs_completed before)
                      (stat_jobs_failed before + 1)
                      (stat_messages_processed before)
                      (uptime_seconds before)
  | None =>
      before = mkWorkerStats 0 0 0 (Some 0) ∧
      get_worker_stats completed t caller = before ∧
      get_worker_stats failed t caller = before
  end ∧
  ∀ other, other ≠ caller →
    get_worker_stats completed t other = get_worker_stats s t other ∧
    get_worker_stats failed t other = get_worker_stats s t other.
Proof.
  intros Hne completed failed before.
  subst completed failed before.
  unfold get_worker_stats, started_at_of, with_db.
  cbn [db worker_meta].
  rewrite complete_job_workers, fail_job_workers.
  rewrite !update_worker_stats_lookup. split.
  - rewrite !decide_True by done.
    destruct (workers (db s) !! caller) as [w|]; simpl; done.
  - intros other Hother. rewrite !update_worker_stats_lookup.
    rewrite !decide_False by (intros [? _]; done). done.
Qed.

End registry_reports.

Lemma stats_follow_job_reports_witness :
  let s := Registry.mkStore
             (Sample.ledger
                [Sample.job "j1" 1 5 "running" (Some "w1") 10 None])
             (<["w1" := Registry.mkWorkerMeta None (Some 3)]> ∅) in
  "w1" ≠ "" ∧
  Registry.get_worker_stats
    (Registry.with_db s (Routes.complete_job (Registry.db s) 20 "j1" 5 "w1").2)
    30 "w1"
  = Registry.mkWorkerStats 1 0 5 (Some 27).
Proof.
  intros s.
  assert (Hne : "w1" ≠ "") by discriminate.
  split; [exact Hne|].
  exact (proj1 (proj1 (stats_follow_job_reports s 20 30 "j1" "w1" "x" 5 Hne))).
Defined.

(* ===================================================================== *)
(** ** Worker: the API client's retries                                   *)
(* ===================================================================== *)

Section client_retries.
Import Client.
Context {Net : Type}.
Variable post : Net → Payload → PostResult * Net.

Lemma submit_loop_shape rc payload remaining :
  ∀ attempt net trace,
    remaining ≠ 0%nat →
    Z.of_nat remaining = rc - attempt →
    ∃ errors last net',
      submit_loop post rc remaining attempt net payload trace
      = (answer_of last, net', trace ++ backoff attempt errors ++ [Posted last]) ∧
      attempt + Z.of_nat (length errors) < rc ∧
      (∀ msg, last = HTTPError msg →
              attempt + Z.of_nat (length errors) = rc - 1).
Proof.
  induction remaining as [|r IH]; intros attempt net trace Hpos Hrem; [done|].
  cbn [submit_loop]. destruct (post net payload) as [[|msg|e] net'] eqn:Hp.
  - exists [], Accepted, net'. simpl. split; [done|]. split; [lia|done].
  - destruct (Z.ltb_spec attempt (rc - 1)) as [Hlt|Hge].
    + destruct (IH (attempt + 1) net'
                  (trace ++ [Posted (HTTPError msg); Slept (2 ^ attempt)]))
        as (errors & last & net'' & Hloop & Hlen & Hlast); [lia|lia|].
      exists (msg :: errors), last, net''. rewrite Hloop.
      split; [|split].
      * simpl. by rewrite <- !app_assoc.
      * simpl length. lia.
      * intros m Hm. specialize (Hlast m Hm). simpl length. lia.
    + exists [], (HTTPError msg), net'. simpl. split; [done|].
      split; [lia|]. intros _ _. lia.
  - exists [], (Fails e), net'. simpl. split; [done|]. split; [lia|done].
Qed.

(** X26: the retries of the client.  With a retry count of zero or less
    nothing is posted and the answer is [False].  Otherwise the payload is
    posted until a post is answered or raises something other than an
    HTTP error, at most [retry_count] times; the pause after the failed
    post of attempt [i] lasts [2 ^ i] seconds, and there is no pause after
    the last post.  The answer is [True] exactly when the last post was
    accepted, and [False] only after [retry_count] failed posts. *)
Theorem submit_messages_retries (net : Net) (ch : Z)
    (msgs : list Writer.Message) (jid : option string) (retry_count : Z) :
  let r := submit_messages post net ch msgs jid retry_count in
  if retry_count <=? 0 then r = (Return false, net, [])
  else
    ∃ errors last net',
      r = (answer_of last, net', backoff 0 errors ++ [Posted last]) ∧
      Z.of_nat (length errors) < retry_count ∧
      (∀ msg, last = HTTPError msg →
              Z.of_nat (length errors) = retry_count - 1).
Proof.
  intros r. subst r. unfold submit_messages.
  destruct (Z.leb_spec retry_count 0) as [Hle|Hgt].
  - by replace (Z.to_nat retry_count) with 0%nat by lia.
  - destruct (submit_loop_shape retry_count (mkPayload ch jid msgs)
                (Z.to_nat retry_count) 0 net [])
      as (errors & last & net' & Hloop & Hlen & Hlast); [lia|lia|].
    exists errors, last, net'. rewrite Hloop. simpl.
    split; [done|]. split; [lia|]. intros msg Hm.
    specialize (Hlast msg Hm). lia.
Qed.

End client_retries.

(* ===================================================================== *)
(** ** Worker: collecting and submitting messages                         *)
(* ===================================================================== *)

Section executor_collect.
Import Executor.
Context {Raw Parsed Net : Type}.
Variable parse_message : Raw → PyExc + Parsed.
Variable submit_messages : Net → list Parsed → (PyExc + bool) * Net.
Variable batch_size : Z.

#[local] Abbreviation parsed := (parsed_of parse_message).

Lemma delivered_app (t1 t2 : list (@Event Parsed)) :
  delivered (t1 ++ t2) = delivered t1 ++ delivered t2.
Proof.
  induction t1 as [|[batch [e|[|]]|d] t1 IH]; simpl; try done.
  by rewrite IH, app_assoc.
Qed.

Lemma parsed_cons_inl message rest e :
  parse_message message = inl e → parsed (message :: rest) = parsed rest.
Proof. intros H. unfold parsed_of. simpl. by rewrite H. Qed.

Lemma parsed_cons_inr message rest p :
  parse_message message = inr p →
  parsed (message :: rest) = p :: parsed rest.
Proof. intros H. unfold parsed_of. simpl. by rewrite H. Qed.

Lemma collect_loop_accounts stream :
  ∀ batch collected net trace,
    let out := collect_loop parse_message submit_messages batch_size
                 stream batch collected net trace in
    delivered out.2 ++ out.1.1.1
    = delivered trace ++ batch ++ parsed stream ∧
    out.1.1.2 = collected + Z.of_nat (length (parsed stream)).
Proof.
  induction stream as [|message rest IH]; intros batch collected net trace.
  - simpl. rewrite app_nil_r. split; [done|lia].
  - cbn [collect_loop].
    destruct (parse_message message) as [e|p] eqn:Hp.
    { rewrite (parsed_cons_inl _ _ _ Hp). apply IH. }
    rewrite (parsed_cons_inr _ _ _ Hp).
    assert (Hlen : ∀ c, c + 1 + Z.of_nat (length (parsed rest))
                        = c + Z.of_nat (length (p :: parsed rest)))
      by (intros c; simpl length; lia).
    destruct (batch_size <=? Z.of_nat (length (batch ++ [p]))).
    + destruct (submit_messages net (batch ++ [p])) as [[e|[|]] net'].
      * specialize (IH (batch ++ [p]) (collected + 1) net'
                       (trace ++ [Submitted (batch ++ [p]) (inl e)])).
        cbn zeta in IH. destruct IH as [IH1 IH2]. split.
        -- rewrite IH1, delivered_app. simpl.
           by rewrite app_nil_r, <- !app_assoc.
        -- by rewrite IH2.
      * specialize (IH [] (collected + 1) net'
                       (trace ++ [Submitted (batch ++ [p]) (inr true)])).
        cbn zeta in IH. destruct IH as [IH1 IH2]. split.
        -- rewrite IH1, delivered_app. simpl.
           by rewrite app_nil_r, <- !app_assoc.
        -- by rewrite IH2.
      * specialize (IH (batch ++ [p]) (collected + 1) net'
                       (trace ++ [Submitted (batch ++ [p]) (inr false);
                                  Slept 5])).
        cbn zeta in IH. destruct IH as [IH1 IH2]. split.
        -- rewrite IH1, delivered_app. simpl.
           by rewrite app_nil_r, <- !app_assoc.
        -- by rewrite IH2.
    + specialize (IH (batch ++ [p]) (collected + 1) net trace).
      cbn zeta in IH. destruct IH as [IH1 IH2]. split.
      * rewrite IH1. by rewrite <- !app_assoc.
      * by rewrite IH2.
Qed.

Lemma collect_messages_count stream stream_error collected net :
  (_collect_messages parse_message submit_messages batch_size
     stream stream_error collected net).1.1.2
  = collected + Z.of_nat (length (parsed stream)).
Proof.
  unfold _collect_messages.
  pose proof (collect_loop_accounts stream [] collected net []) as Hloop.
  cbn zeta in Hloop.
  destruct (collect_loop parse_message submit_messages batch_size stream []
              collected net []) as [[[batch c] net1] trace].
  cbn [fst snd] in Hloop. destruct Hloop as [_ Hc].
  destruct stream_error as [e|]; [done|].
  destruct batch as [|p batch]; [done|].
  by destruct (submit_messages net1 (p :: batch)) as [[e|ok] net2].
Qed.

Lemma collect_messages_never_suspends stream stream_error collected net :
  (_collect_messages parse_message submit_messages batch_size
     stream stream_error collected net).1.1.1 ≠ Suspend.
Proof.
  unfold _collect_messages.
  destruct (collect_loop parse_message submit_messages batch_size stream []
              collected net []) as [[[batch c] net1] trace].
  destruct stream_error as [e|]; [done|].
  destruct batch as [|p batch]; [done|].
  by destruct (submit_messages net1 (p :: batch)) as [[e|ok] net2].
Qed.

(** X27: what a collection accounts for.  [messages_collected] grows by
    the number of messages that parse, whether or not their batch is ever
    accepted.  The batches the collector accepted, put end to end, are an
    initial part of the parsed messages, in order and without repetition;
    the part left over is empty unless the collection ends with an
    exception or its final submission is answered [False], in which case
    the collection still returns normally. *)
Theorem collect_messages_accounts (stream : list Raw)
    (stream_error : option PyExc) (collected : Z) (net : Net) :
  let out := _collect_messages parse_message submit_messages batch_size
               stream stream_error collected net in
  let answer := out.1.1.1 in
  let trace := out.2 in
  out.1.1.2 = collected + Z.of_nat (length (parsed stream)) ∧
  ∃ leftover,
    delivered trace ++ leftover = parsed stream ∧
    (leftover = [] ∨
     (∃ e, answer = Raise e) ∨
     (answer = Return () ∧
      last trace = Some (Submitted leftover (inr false)))).
Proof.
  intros out answer trace. subst answer trace out.
  unfold _collect_messages.
  pose proof (collect_loop_accounts stream [] collected net []) as Hloop.
  cbn zeta in Hloop.
  destruct (collect_loop parse_message submit_messages batch_size stream []
              collected net []) as [[[batch c] net1] trace].
  cbn [fst snd] in Hloop. destruct Hloop as [Hdel Hc].
  cbn [delivered app] in Hdel.
  destruct stream_error as [e|].
  - cbn [fst snd]. split; [exact Hc|]. exists batch.
    split; [exact Hdel|]. right. left. by exists e.
  - destruct batch as [|p batch].
    + cbn [fst snd]. split; [exact Hc|]. exists [].
      split; [exact Hdel|]. by left.
    + destruct (submit_messages net1 (p :: batch)) as [[e|[|]] net2];
        cbn [fst snd]; (split; [exact Hc|]).
      * exists (p :: batch). rewrite delivered_app. simpl.
        rewrite app_nil_r. split; [exact Hdel|]. right. left. by exists e.
      * exists []. rewrite delivered_app. simpl.
        rewrite !app_nil_r. split; [exact Hdel|]. by left.
      * exists (p :: batch). rewrite delivered_app. simpl.
        rewrite app_nil_r. split; [exact Hdel|]. right. right.
        split; [done|]. by rewrite last_snoc.
Qed.

End executor_collect.

(* ===================================================================== *)
(** ** Worker: executing a job                                            *)
(* ===================================================================== *)

Section executor_execute.
Import Executor.
Context {Raw Parsed Net : Type}.
Variable parse_message : Raw → PyExc + Parsed.
Variable submit_messages :
  Z → option string → Net → list Parsed → (PyExc + bool) * Net.
Variable report : Net → Report → (PyExc + bool) * Net.
Variable get_messages :
  string → option Z → option Z → list Raw * option PyExc.
Variable batch_size : Z.

Lemma report_failure_answered job_id e net reports :
  reports_are_answered report →
  ∃ net', report_failure report job_id e net reports
          = (Return (), net', reports ++ [FailJob job_id (str e)]).
Proof.
  intros Hans. unfold report_failure.
  destruct (Hans net (FailJob job_id (str e))) as (ok & net' & ->).
  by exists net'.
Qed.


End executor_execute.

Lemma sample_acknowledging_answers :
  reports_are_answered Sample.acknowledging.
Proof. intros net r. by eexists _, _. Qed.

